(** * TouchHarp: the touch sensor and the pluck state machine

    A shallow embedding of [TouchPin] (TouchPin.h, TouchPin.cpp) and
    [HarpString] (HarpString.h, HarpString.cpp), and the properties of the
    sampling ring buffer and of the pluck state machine.

    Platform.  [touchRead] exists on the 32-bit Teensy boards only, so
    [int], [unsigned int] and [unsigned long] are 32 bits wide and [byte] is
    8 bits wide.  [Arduino.h] is not part of the sketch; its
    [boolean] is taken as the 8-bit unsigned typedef of the wiring core, the
    only reading under which the three state constants are distinct values of
    [_state]. *)

From Stdlib Require Import ZArith Lia String.
From stdpp Require Import base numbers list.

Local Open Scope Z_scope.

(** ** Machine integers *)

Module Int.

Definition to_unsigned (bits : Z) (z : Z) : Z := z mod 2 ^ bits.

Definition to_signed (bits : Z) (z : Z) : Z :=
  (z + 2 ^ (bits - 1)) mod 2 ^ bits - 2 ^ (bits - 1).

(** [unsigned int] *)
Definition to_uint : Z → Z := to_unsigned 32.
(** [unsigned long] *)
Definition to_ulong : Z → Z := to_unsigned 32.
(** [int] *)
Definition to_int : Z → Z := to_signed 32.
(** [byte] *)
Definition to_byte : Z → Z := to_unsigned 8.
(** [boolean] *)
Definition to_boolean : Z → Z := to_unsigned 8.

Definition is_uint (z : Z) : Prop := 0 ≤ z < 2 ^ 32.
Definition is_ulong (z : Z) : Prop := 0 ≤ z < 2 ^ 32.

End Int.

Import Int.

(** ** The environment of one call

    What the board answers during one call of [update], and what the call
    asks of it.  A call runs to completion within one tick of the millisecond
    counter, so every [millis()] of the call reads the same [clock]; the
    counter itself is an [unsigned long] and wraps. *)

Record Env : Type := mkEnv {
  clock : Z;            (* milliseconds since start, as counted by the board *)
  touch : Z → Z         (* what touchRead answers for a pin *)
}.

Inductive Event : Type :=
| DigitalWrite (pin val : Z)
| TouchRead (pin : Z)
| SendNoteOn (note velocity channel : Z)
| SendNoteOff (note velocity channel : Z)
| SerialPrintln (line : string).

(** A member function is a computation over the object's fields: it reads the
    environment, may change the fields, and leaves the events it caused, in
    order.  [None] is an access outside an array. *)
Definition M (St A : Type) : Type := Env → St → option (A * St * list Event).

Definition ret {St A} (a : A) : M St A := λ _ s, Some (a, s, []).

Definition bind {St A B} (c : M St A) (k : A → M St B) : M St B :=
  λ env s,
    match c env s with
    | None => None
    | Some (a, s1, ev1) =>
        match k a env s1 with
        | None => None
        | Some (b, s2, ev2) => Some (b, s2, ev1 ++ ev2)
        end
    end.

Declare Scope harp_scope.
Delimit Scope harp_scope with harp.
Notation "x <- c ;; k" := (bind c (λ x, k))
  (at level 100, c at next level, right associativity) : harp_scope.
Notation "c ;;; k" := (bind c (λ _, k))
  (at level 100, right associativity) : harp_scope.
Local Open Scope harp_scope.

Definition get {St} : M St St := λ _ s, Some (s, s, []).
Definition modify {St} (f : St → St) : M St unit := λ _ s, Some (tt, f s, []).
Definition emit {St} (e : Event) : M St unit := λ _ s, Some (tt, s, [e]).
Definition undefined {St A} : M St A := λ _ _, None.
Definition when {St} (b : bool) (c : M St unit) : M St unit :=
  if b then c else ret tt.

(** [millis()] *)
Definition millis {St} : M St Z := λ env s, Some (to_ulong (clock env), s, []).
(** [touchRead(pin)] *)
Definition touchRead {St} (pin : Z) : M St Z :=
  λ env s, Some (touch env pin, s, [TouchRead pin]).
(** [digitalWrite(pin, val)] *)
Definition digitalWrite {St} (pin val : Z) : M St unit := emit (DigitalWrite pin val).

(** ** TouchPin.h *)

Definition SAMPLE_BUFFER_SIZE : Z := 10.
Definition DEFAULT_TOUCH_THRESHOLD : Z := 5000.
Definition SEL0 : Z := 2.
Definition SEL1 : Z := 3.
Definition SEL2 : Z := 4.
Definition SEL3 : Z := 5.

Record TouchPin : Type := mkTouchPin {
  _pin : Z;
  _sample_period : Z;
  _last_sample_time : Z;
  _samples : list Z;
  _index : Z;
  _sum : Z;
  _touch_threshold : Z;
  _select_line : Z
}.

Definition set_last_sample_time (v : Z) (t : TouchPin) : TouchPin :=
  mkTouchPin (_pin t) (_sample_period t) v (_samples t) (_index t) (_sum t)
             (_touch_threshold t) (_select_line t).
Definition set_samples (v : list Z) (t : TouchPin) : TouchPin :=
  mkTouchPin (_pin t) (_sample_period t) (_last_sample_time t) v (_index t) (_sum t)
             (_touch_threshold t) (_select_line t).
Definition set_index (v : Z) (t : TouchPin) : TouchPin :=
  mkTouchPin (_pin t) (_sample_period t) (_last_sample_time t) (_samples t) v (_sum t)
             (_touch_threshold t) (_select_line t).
Definition set_sum (v : Z) (t : TouchPin) : TouchPin :=
  mkTouchPin (_pin t) (_sample_period t) (_last_sample_time t) (_samples t) (_index t) v
             (_touch_threshold t) (_select_line t).
Definition set_threshold (v : Z) (t : TouchPin) : TouchPin :=
  mkTouchPin (_pin t) (_sample_period t) (_last_sample_time t) (_samples t) (_index t)
             (_sum t) v (_select_line t).

(** [_samples[i]] as a value, and [_samples[i] = v]. *)
Definition read_sample (i : Z) : M TouchPin Z :=
  t <- get ;;
  match _samples t !! Z.to_nat i with
  | Some v => ret v
  | None => undefined
  end.

Definition write_sample (i v : Z) : M TouchPin unit :=
  t <- get ;;
  if decide (Z.to_nat i < length (_samples t))%nat
  then modify (set_samples (<[Z.to_nat i := v]> (_samples t)))
  else undefined.

(** ** TouchPin.cpp *)

(** The constructors assign every field except [_samples]: the ring buffer
    keeps whatever the object's storage held, [storage] here. *)
Definition TouchPin_new (storage : list Z) (pin sample_period : Z) : TouchPin :=
  {| _pin := to_int pin;
     _sample_period := to_ulong sample_period;
     _last_sample_time := 0;
     _samples := storage;
     _index := 0;
     _sum := 0;
     _touch_threshold := to_uint DEFAULT_TOUCH_THRESHOLD;
     _select_line := to_int (-1) |}.

Definition TouchPin_new_select (storage : list Z) (pin sample_period select_line : Z)
  : TouchPin :=
  {| _pin := to_int pin;
     _sample_period := to_ulong sample_period;
     _last_sample_time := 0;
     _samples := storage;
     _index := 0;
     _sum := 0;
     _touch_threshold := to_uint DEFAULT_TOUCH_THRESHOLD;
     _select_line := to_int (to_uint select_line) |}.

Definition TouchPin_update : M TouchPin unit :=
  now <- millis ;;
  t <- get ;;
  when (now >? to_ulong (_last_sample_time t + _sample_period t)) (
    when (_select_line t >=? 0) (
      digitalWrite SEL0 (Z.land (_select_line t) 1) ;;;
      digitalWrite SEL1 (Z.land (Z.shiftr (_select_line t) 1) 1) ;;;
      digitalWrite SEL2 (Z.land (Z.shiftr (_select_line t) 2) 1) ;;;
      digitalWrite SEL3 (Z.land (Z.shiftr (_select_line t) 3) 1)) ;;;
    now' <- millis ;;
    modify (set_last_sample_time now') ;;;
    r <- touchRead (_pin t) ;;
    let val := to_uint r in
    old <- read_sample (_index t) ;;
    modify (λ t, set_sum (to_ulong (_sum t - old)) t) ;;;
    write_sample (_index t) val ;;;
    modify (λ t, set_sum (to_ulong (_sum t + val)) t) ;;;
    modify (set_index (to_uint (to_uint (_index t + 1) `mod` SAMPLE_BUFFER_SIZE)))).

Definition value (t : TouchPin) : Z :=
  to_uint (_sum t ÷ to_ulong SAMPLE_BUFFER_SIZE).

Definition touching (t : TouchPin) : bool :=
  value t >? _touch_threshold t.

Definition set_touch_threshold (touch_threshold : Z) : M TouchPin unit :=
  modify (set_threshold (to_uint touch_threshold)).

(** ** HarpString.h *)

Definition DEFAULT_STRING_VIBRATION_DURATION : Z := 2000.
Definition STATE_IDLE : Z := 1.
Definition STATE_ARMED : Z := 2.
Definition STATE_SOUNDING : Z := 3.

(** [HarpString] extends [TouchPin]: [base] is the inherited part. *)
Record HarpString : Type := mkHarpString {
  base : TouchPin;
  _state : Z;
  _on_time : Z;
  _midi_note : Z;
  _duration : Z
}.

Definition set_base (v : TouchPin) (h : HarpString) : HarpString :=
  mkHarpString v (_state h) (_on_time h) (_midi_note h) (_duration h).
Definition set_state (v : Z) (h : HarpString) : HarpString :=
  mkHarpString (base h) v (_on_time h) (_midi_note h) (_duration h).
Definition set_on_time (v : Z) (h : HarpString) : HarpString :=
  mkHarpString (base h) (_state h) v (_midi_note h) (_duration h).
Definition set_note (v : Z) (h : HarpString) : HarpString :=
  mkHarpString (base h) (_state h) (_on_time h) v (_duration h).
Definition set_dur (v : Z) (h : HarpString) : HarpString :=
  mkHarpString (base h) (_state h) (_on_time h) (_midi_note h) v.

(** A member function of the base class, called on the derived object. *)
Definition super {A} (c : M TouchPin A) : M HarpString A :=
  λ env h,
    match c env (base h) with
    | None => None
    | Some (a, b, ev) => Some (a, set_base b h, ev)
    end.

Definition HarpString_new (storage : list Z) (pin sample_period : Z) : HarpString :=
  {| base := TouchPin_new storage pin sample_period;
     _state := to_boolean STATE_IDLE;
     _on_time := 0;
     _midi_note := 0;
     _duration := to_ulong DEFAULT_STRING_VIBRATION_DURATION |}.

Definition HarpString_new_select (storage : list Z) (pin sample_period select_line : Z)
  : HarpString :=
  {| base := TouchPin_new_select storage pin sample_period select_line;
     _state := to_boolean STATE_IDLE;
     _on_time := 0;
     _midi_note := 0;
     _duration := to_ulong DEFAULT_STRING_VIBRATION_DURATION |}.

(** ** HarpString.cpp *)

Definition note_on : M HarpString unit :=
  h <- get ;; emit (SendNoteOn (_midi_note h) 100 1).

Definition note_off : M HarpString unit :=
  h <- get ;; emit (SendNoteOff (_midi_note h) 100 1).

(** The [switch] statement of [HarpString::update]. *)
Definition HarpString_switch : M HarpString unit :=
  h <- get ;;
  if _state h =? STATE_IDLE then
    when (touching (base h)) (
      modify (set_state (to_boolean STATE_ARMED)))
  else if _state h =? STATE_ARMED then
    when (negb (touching (base h))) (
      note_on ;;;
      modify (set_state (to_boolean STATE_SOUNDING)) ;;;
      now <- millis ;;
      modify (set_on_time now))
  else if _state h =? STATE_SOUNDING then
    if touching (base h) then
      note_off ;;;
      modify (set_state (to_boolean STATE_ARMED))
    else
      now <- millis ;;
      when (to_ulong (now - _on_time h) >? _duration h) (
        note_off ;;;
        modify (set_on_time 0) ;;;
        modify (set_state (to_boolean STATE_IDLE)))
  else
    emit (SerialPrintln "OOOOPS").

Definition HarpString_update : M HarpString unit :=
  super TouchPin_update ;;;   (* Call superclass, where the pin is actually read *)
  HarpString_switch.

Definition set_midi_note (midi_note : Z) : M HarpString unit :=
  modify (set_note (to_byte midi_note)).

Definition set_duration (duration : Z) : M HarpString unit :=
  modify (set_dur (to_ulong duration)).

(** ** Runs: what a driver may do with an object after constructing it *)

(** The public member functions of a [TouchPin] ... *)
Inductive PinCall : Type :=
| PinUpdate (env : Env)
| PinSetTouchThreshold (touch_threshold : Z).

(** ... and of a [HarpString], whose [update] overrides the sensor's. *)
Inductive Call : Type :=
| Update (env : Env)
| SetTouchThreshold (touch_threshold : Z)
| SetMidiNote (midi_note : Z)
| SetDuration (duration : Z).

(** The setters consult neither the clock nor the pin. *)
Definition no_env : Env := mkEnv 0 (λ _, 0).

Definition TouchPin_call (c : PinCall) (t : TouchPin) : option (TouchPin * list Event) :=
  match c with
  | PinUpdate env => '(_, t', ev) ← TouchPin_update env t; Some (t', ev)
  | PinSetTouchThreshold v => '(_, t', ev) ← set_touch_threshold v no_env t; Some (t', ev)
  end.

Definition HarpString_call (c : Call) (h : HarpString) : option (HarpString * list Event) :=
  match c with
  | Update env => '(_, h', ev) ← HarpString_update env h; Some (h', ev)
  | SetTouchThreshold v => '(_, h', ev) ← super (set_touch_threshold v) no_env h; Some (h', ev)
  | SetMidiNote v => '(_, h', ev) ← set_midi_note v no_env h; Some (h', ev)
  | SetDuration v => '(_, h', ev) ← set_duration v no_env h; Some (h', ev)
  end.

Fixpoint run {C St} (call : C → St → option (St * list Event)) (cs : list C) (s : St)
  : option (St * list Event) :=
  match cs with
  | [] => Some (s, [])
  | c :: cs =>
      '(s1, ev1) ← call c s;
      '(s2, ev2) ← run call cs s1;
      Some (s2, ev1 ++ ev2)
  end.

(** The note events among the events of a call. *)
Definition is_note (e : Event) : bool :=
  match e with
  | SendNoteOn _ _ _ | SendNoteOff _ _ _ => true
  | _ => false
  end.

Definition is_note_on (e : Event) : bool :=
  match e with SendNoteOn _ _ _ => true | _ => false end.

Definition is_println (e : Event) : bool :=
  match e with SerialPrintln _ => true | _ => false end.

Definition sumZ (l : list Z) : Z := foldr Z.add 0 l.

(** A reading of [r] on every pin at time [now]. *)
Definition at_time (now r : Z) : Env := mkEnv now (λ _, r).

Definition zero_storage : list Z := replicate 10 0.

(** ** What one sample does *)

(** The sample-period test of [TouchPin::update]. *)
Definition due (env : Env) (t : TouchPin) : bool :=
  to_ulong (clock env) >? to_ulong (_last_sample_time t + _sample_period t).

(** The multiplexer writes of a sample. *)
Definition select_events (t : TouchPin) : list Event :=
  if _select_line t >=? 0 then
    [DigitalWrite SEL0 (Z.land (_select_line t) 1);
     DigitalWrite SEL1 (Z.land (Z.shiftr (_select_line t) 1) 1);
     DigitalWrite SEL2 (Z.land (Z.shiftr (_select_line t) 2) 1);
     DigitalWrite SEL3 (Z.land (Z.shiftr (_select_line t) 3) 1)]
  else [].

(** The fields after a sample that found [old] in the slot it overwrites. *)
Definition sampled (env : Env) (t : TouchPin) (old : Z) : TouchPin :=
  {| _pin := _pin t;
     _sample_period := _sample_period t;
     _last_sample_time := to_ulong (clock env);
     _samples := <[Z.to_nat (_index t) := to_uint (touch env (_pin t))]> (_samples t);
     _index := to_uint (to_uint (_index t + 1) `mod` SAMPLE_BUFFER_SIZE);
     _sum := to_ulong (to_ulong (_sum t - old) + to_uint (touch env (_pin t)));
     _touch_threshold := _touch_threshold t;
     _select_line := _select_line t |}.

(** The ring buffer has its ten slots and the cursor points at one of them. *)
Definition buffer_ok (t : TouchPin) : Prop :=
  length (_samples t) = 10%nat ∧ 0 ≤ _index t < SAMPLE_BUFFER_SIZE.

Inductive TouchPin_constructed (storage : list Z) : TouchPin → Prop :=
| constructed_direct pin sample_period :
    TouchPin_constructed storage (TouchPin_new storage pin sample_period)
| constructed_select pin sample_period select_line :
    TouchPin_constructed storage (TouchPin_new_select storage pin sample_period select_line).

Inductive HarpString_constructed (storage : list Z) : HarpString → Prop :=
| string_direct pin sample_period :
    HarpString_constructed storage (HarpString_new storage pin sample_period)
| string_select pin sample_period select_line :
    HarpString_constructed storage
      (HarpString_new_select storage pin sample_period select_line).

(** Every reading the driver supplies lies in [0, bound]. *)
Definition readings_within (bound : Z) (c : PinCall) : Prop :=
  match c with
  | PinUpdate env => ∀ pin, 0 ≤ touch env pin ≤ bound
  | PinSetTouchThreshold _ => True
  end.

Definition valid_state (z : Z) : Prop :=
  z = STATE_IDLE ∨ z = STATE_ARMED ∨ z = STATE_SOUNDING.

(** What the running sum is to the ring buffer, as far as it holds of every
    state a run passes through. *)
Definition sum_tracks (t : TouchPin) : Prop :=
  buffer_ok t ∧ Forall is_uint (_samples t) ∧ _sum t = to_ulong (sumZ (_samples t)).

(** What holds of a string after any run from construction: the buffer is in
    order, [_state] is one of the three constants, and an Idle string has no
    note-on time. *)
Definition string_ok (h : HarpString) : Prop :=
  buffer_ok (base h) ∧ valid_state (_state h) ∧ (_state h = STATE_IDLE → _on_time h = 0).

(** ** Vocabulary for whole runs *)

(** The readings a run of sensor calls stores, oldest first: one for each
    [update] that finds the sample period elapsed. *)
Fixpoint readings_taken (cs : list PinCall) (t : TouchPin) : list Z :=
  match cs with
  | [] => []
  | c :: cs =>
      match TouchPin_call c t with
      | Some (t', _) =>
          match c with
          | PinUpdate env => if due env t then [to_uint (touch env (_pin t))] else []
          | PinSetTouchThreshold _ => []
          end ++ readings_taken cs t'
      | None => []
      end
  end.

(** The last ten elements of a list, all of it when it is shorter. *)
Definition last_ten (rs : list Z) : list Z := drop (length rs - 10) rs.

(** The ring buffer read from the cursor on, around the end: oldest slot
    first. *)
Definition unrolled (t : TouchPin) : list Z :=
  drop (Z.to_nat (_index t)) (_samples t) ++ take (Z.to_nat (_index t)) (_samples t).

(** The buffer of [t] is the ring that [hist] leaves: everything ever held,
    the initial storage first, of which the last ten are in the slots and the
    oldest of them is under the cursor. *)
Definition ring_of (hist : list Z) (t : TouchPin) : Prop :=
  (10 ≤ length hist)%nat ∧
  length (_samples t) = 10%nat ∧
  _index t = Z.of_nat (length hist - 10) `mod` 10 ∧
  unrolled t = drop (length hist - 10) hist.

(** The calls of a string that reach its sensor part. *)
Definition sensor_call (c : Call) : list PinCall :=
  match c with
  | Update env => [PinUpdate env]
  | SetTouchThreshold v => [PinSetTouchThreshold v]
  | SetMidiNote _ | SetDuration _ => []
  end.

Definition is_sensor_event (e : Event) : bool :=
  match e with
  | DigitalWrite _ _ | TouchRead _ => true
  | _ => false
  end.

Definition is_digital_write (e : Event) : bool :=
  match e with DigitalWrite _ _ => true | _ => false end.

(** Follows the note events of a trace: [Some b] when every note-on came
    while no note was sounding and every note-off while one was, [b] telling
    whether a note is sounding at the end; [None] otherwise. *)
Fixpoint track_notes (sounding : bool) (ev : list Event) : option bool :=
  match ev with
  | [] => Some sounding
  | SendNoteOn _ _ _ :: ev => if sounding then None else track_notes true ev
  | SendNoteOff _ _ _ :: ev => if sounding then track_notes false ev else None
  | _ :: ev => track_notes sounding ev
  end.

(** What every note event of a string looks like. *)
Definition note_shape (e : Event) : Prop :=
  match e with
  | SendNoteOn n v c | SendNoteOff n v c => 0 ≤ n < 256 ∧ v = 100 ∧ c = 1
  | _ => True
  end.

(** The fields of a sensor hold values of their C types. *)
Definition fields_in_range (t : TouchPin) : Prop :=
  is_ulong (_sample_period t) ∧ is_ulong (_last_sample_time t) ∧
  is_ulong (_sum t) ∧ is_uint (_touch_threshold t) ∧
  -2 ^ 31 ≤ _select_line t < 2 ^ 31 ∧ -2 ^ 31 ≤ _pin t < 2 ^ 31.

(** A call that can make no touch: readings within [0, bound], and a
    threshold not set below [bound]. *)
Definition stays_below (bound : Z) (c : Call) : Prop :=
  match c with
  | Update env => ∀ pin, 0 ≤ touch env pin ≤ bound
  | SetTouchThreshold v => bound ≤ to_uint v
  | SetMidiNote _ | SetDuration _ => True
  end.

(** A sensor whose average cannot pass its threshold: sum and buffer agree,
    no slot is above [bound] and the threshold is not below it. *)
Definition held_below (bound : Z) (t : TouchPin) : Prop :=
  sum_tracks t ∧ Forall (λ x, 0 ≤ x ≤ bound) (_samples t) ∧ bound ≤ _touch_threshold t.

Arguments to_unsigned : simpl never.
Arguments to_signed : simpl never.
Arguments to_uint : simpl never.
Arguments to_ulong : simpl never.
Arguments to_int : simpl never.
Arguments to_byte : simpl never.
Arguments to_boolean : simpl never.
Arguments TouchPin_update : simpl never.
Arguments HarpString_update : simpl never.

(** * Properties *)

(** ** Machine integers *)

Lemma to_uint_range z : is_uint (to_uint z).
Proof. unfold is_uint, to_uint, to_unsigned. apply Z.mod_pos_bound. lia. Qed.

Lemma to_ulong_range z : is_ulong (to_ulong z).
Proof. apply to_uint_range. Qed.

Lemma to_uint_id z : is_uint z → to_uint z = z.
Proof. unfold is_uint, to_uint, to_unsigned. intros H. apply Z.mod_small. lia. Qed.

Lemma to_ulong_id z : is_ulong z → to_ulong z = z.
Proof. apply to_uint_id. Qed.

Lemma to_ulong_add_l a b : to_ulong (to_ulong a + b) = to_ulong (a + b).
Proof. unfold to_ulong, to_unsigned. apply Zplus_mod_idemp_l. Qed.

Lemma to_ulong_sub_l a b : to_ulong (to_ulong a - b) = to_ulong (a - b).
Proof. unfold to_ulong, to_unsigned. apply Zminus_mod_idemp_l. Qed.

(** ** The sensor step *)

Ltac step_monad :=
  unfold bind, ret, get, modify, emit, when, millis, touchRead, digitalWrite,
    undefined, read_sample, write_sample; cbn.

Lemma TouchPin_update_idle env t :
  due env t = false → TouchPin_update env t = Some (tt, t, []).
Proof.
  unfold due, TouchPin_update. step_monad. intros ->. reflexivity.
Qed.

Lemma TouchPin_update_sample env t old :
  due env t = true →
  _samples t !! Z.to_nat (_index t) = Some old →
  TouchPin_update env t = Some (tt, sampled env t old, select_events t ++ [TouchRead (_pin t)]).
Proof.
  unfold due, TouchPin_update, select_events, sampled. step_monad.
  intros -> Hold.
  pose proof (lookup_lt_Some _ _ _ Hold) as Hlt.
  destruct (_select_line t >=? 0); cbn; rewrite Hold; cbn;
    (destruct (decide _) as [_|]; [|lia]); cbn; reflexivity.
Qed.

Lemma TouchPin_update_undefined env t :
  due env t = true →
  _samples t !! Z.to_nat (_index t) = None →
  TouchPin_update env t = None.
Proof.
  unfold due, TouchPin_update. step_monad. intros -> Hnone.
  destruct (_select_line t >=? 0); cbn; rewrite Hnone; reflexivity.
Qed.

(** Every outcome of the sensor step is one of the two above. *)
Lemma TouchPin_update_inv env t u b sev :
  TouchPin_update env t = Some (u, b, sev) →
  (due env t = false ∧ b = t ∧ sev = []) ∨
  (due env t = true ∧ ∃ old, _samples t !! Z.to_nat (_index t) = Some old ∧
     b = sampled env t old ∧ sev = select_events t ++ [TouchRead (_pin t)]).
Proof.
  intros H. destruct (due env t) eqn:Hdue.
  - right. split; [reflexivity|].
    destruct (_samples t !! Z.to_nat (_index t)) as [old|] eqn:Hold.
    + rewrite (TouchPin_update_sample _ _ _ Hdue Hold) in H.
      exists old. inversion H; subst. auto.
    + rewrite (TouchPin_update_undefined _ _ Hdue Hold) in H. discriminate.
  - left. rewrite (TouchPin_update_idle _ _ Hdue) in H.
    inversion H; subst. auto.
Qed.

Lemma select_events_quiet t :
  Forall (λ e, is_note e = false ∧ is_println e = false) (select_events t).
Proof.
  unfold select_events. destruct (_select_line t >=? 0); repeat constructor.
Qed.

Lemma sampled_buffer_ok env t old : buffer_ok t → buffer_ok (sampled env t old).
Proof.
  unfold buffer_ok, sampled, SAMPLE_BUFFER_SIZE. cbn. intros [Hlen Hidx]. split.
  - rewrite length_insert. exact Hlen.
  - rewrite to_uint_id.
    + apply Z.mod_pos_bound. lia.
    + pose proof (Z.mod_pos_bound (to_uint (_index t + 1)) 10). unfold is_uint. lia.
Qed.

(** With the buffer in order the sensor step always returns, keeps the buffer
    in order, and causes neither a note nor a diagnostic line. *)
Lemma TouchPin_update_total env t :
  buffer_ok t →
  ∃ b sev, TouchPin_update env t = Some (tt, b, sev) ∧ buffer_ok b ∧
           Forall (λ e, is_note e = false ∧ is_println e = false) sev.
Proof.
  intros Hok. destruct (due env t) eqn:Hdue.
  - destruct Hok as [Hlen Hidx].
    destruct (lookup_lt_is_Some_2 (_samples t) (Z.to_nat (_index t))) as [old Hold].
    { rewrite Hlen. unfold SAMPLE_BUFFER_SIZE in Hidx. lia. }
    eexists _, _. split; [apply (TouchPin_update_sample _ _ _ Hdue Hold)|]. split.
    + apply sampled_buffer_ok. split; assumption.
    + apply Forall_app. split; [apply select_events_quiet|repeat constructor].
  - eexists _, _. split; [apply (TouchPin_update_idle _ _ Hdue)|]. split; [exact Hok|constructor].
Qed.

Lemma TouchPin_update_quiet env t u b sev :
  TouchPin_update env t = Some (u, b, sev) →
  Forall (λ e, is_note e = false ∧ is_println e = false) sev.
Proof.
  intros H. apply TouchPin_update_inv in H as [(_ & _ & ->)|(_ & old & _ & _ & ->)].
  - constructor.
  - apply Forall_app. split; [apply select_events_quiet|repeat constructor].
Qed.

Lemma filter_quiet (f : Event → bool) (ev : list Event) :
  Forall (λ e, f e = false) ev → List.filter f ev = [].
Proof.
  induction 1 as [|e ev He _ IH]; cbn; [reflexivity|]. rewrite He. exact IH.
Qed.

(** ** Runs *)

(** A property that every admitted call keeps, and a property of events that
    every admitted call respects, hold of the whole run, and the run returns. *)
Lemma run_invariant {C St} (call : C → St → option (St * list Event))
    (P : St → Prop) (Q : C → Prop) (F : Event → Prop) :
  (∀ c s, Q c → P s → ∃ s' ev, call c s = Some (s', ev) ∧ P s' ∧ Forall F ev) →
  ∀ cs s, Forall Q cs → P s →
    ∃ s' ev, run call cs s = Some (s', ev) ∧ P s' ∧ Forall F ev.
Proof.
  intros Hstep cs. induction cs as [|c cs IH]; intros s HQ HP; cbn.
  - eexists _, _. split; [reflexivity|]. split; [exact HP|constructor].
  - apply Forall_cons in HQ as [Hc Hcs].
    destruct (Hstep c s Hc HP) as (s1 & ev1 & -> & HP1 & HF1). cbn.
    destruct (IH s1 Hcs HP1) as (s2 & ev2 & -> & HP2 & HF2). cbn.
    eexists _, _. split; [reflexivity|]. split; [exact HP2|].
    apply Forall_app. split; assumption.
Qed.

(** ** The running sum *)

Lemma sumZ_cons (x : Z) (l : list Z) : sumZ (x :: l) = x + sumZ l.
Proof. reflexivity. Qed.

Lemma sumZ_insert (l : list Z) (i : nat) (old v : Z) :
  l !! i = Some old → sumZ (<[i := v]> l) = sumZ l - old + v.
Proof.
  revert i. induction l as [|x l IH]; intros [|i] H; try discriminate.
  - injection H as ->. change (<[0%nat:=v]> (old :: l)) with (v :: l).
    rewrite !sumZ_cons. lia.
  - change (<[S i:=v]> (x :: l)) with (x :: <[i:=v]> l).
    rewrite !sumZ_cons, (IH i H). lia.
Qed.

Lemma sumZ_bounds (l : list Z) (B : Z) :
  Forall (λ x, 0 ≤ x ≤ B) l → 0 ≤ sumZ l ≤ B * Z.of_nat (length l).
Proof.
  induction 1 as [|x l Hx _ IH]; [cbn; lia|].
  rewrite sumZ_cons, length_cons. lia.
Qed.

Lemma sum_tracks_sampled env t old :
  _samples t !! Z.to_nat (_index t) = Some old →
  sum_tracks t → sum_tracks (sampled env t old).
Proof.
  intros Hold (Hok & Huint & Hsum). split; [|split].
  - apply sampled_buffer_ok, Hok.
  - cbn. apply Forall_insert; [exact Huint|apply to_uint_range].
  - cbn. rewrite (sumZ_insert _ _ _ _ Hold), Hsum.
    rewrite to_ulong_add_l, <- (to_ulong_add_l (_ - _)), to_ulong_sub_l, to_ulong_add_l.
    reflexivity.
Qed.

Lemma sum_tracks_call c t :
  sum_tracks t → ∃ t' ev, TouchPin_call c t = Some (t', ev) ∧ sum_tracks t' ∧ Forall (λ _, True) ev.
Proof.
  intros Htr. destruct c as [env|v]; cbn.
  - destruct (due env t) eqn:Hdue.
    + destruct Htr as (Hok & Hrest). pose proof Hok as [Hlen Hidx].
      destruct (lookup_lt_is_Some_2 (_samples t) (Z.to_nat (_index t))) as [old Hold].
      { rewrite Hlen. unfold SAMPLE_BUFFER_SIZE in Hidx. lia. }
      rewrite (TouchPin_update_sample _ _ _ Hdue Hold). cbn.
      eexists _, _. split; [reflexivity|]. split.
      * apply sum_tracks_sampled; [exact Hold|]. split; assumption.
      * apply Forall_true. auto.
    + rewrite (TouchPin_update_idle _ _ Hdue). cbn.
      eexists _, _. split; [reflexivity|]. split; [exact Htr|constructor].
  - eexists _, _. split; [reflexivity|]. split; [exact Htr|constructor].
Qed.

Lemma within_call B c t t' ev :
  0 ≤ B < 2 ^ 32 →
  readings_within B c →
  TouchPin_call c t = Some (t', ev) →
  Forall (λ x, 0 ≤ x ≤ B) (_samples t) → Forall (λ x, 0 ≤ x ≤ B) (_samples t').
Proof.
  intros HB Hc Hcall Hin. destruct c as [env|v]; cbn in Hcall.
  - destruct (TouchPin_update env t) as [[[u b] sev]|] eqn:Hup; [|discriminate].
    cbn in Hcall. injection Hcall as <- <-.
    apply TouchPin_update_inv in Hup as [(_ & -> & _)|(_ & old & _ & -> & _)]; [exact Hin|].
    cbn. apply Forall_insert; [exact Hin|].
    specialize (Hc (_pin t)). rewrite to_uint_id; [exact Hc|]. unfold is_uint. lia.
  - injection Hcall as <- <-. exact Hin.
Qed.

Lemma within_run B cs : 
  0 ≤ B < 2 ^ 32 →
  ∀ t t' ev, Forall (readings_within B) cs →
  run TouchPin_call cs t = Some (t', ev) →
  Forall (λ x, 0 ≤ x ≤ B) (_samples t) → Forall (λ x, 0 ≤ x ≤ B) (_samples t').
Proof.
  intros HB. induction cs as [|c cs IH]; intros t t' ev Hcs; cbn.
  - intros [= <- <-]. auto.
  - apply Forall_cons in Hcs as [Hc Hcs].
    destruct (TouchPin_call c t) as [[t1 ev1]|] eqn:Hcall; cbn; [|discriminate].
    destruct (run TouchPin_call cs t1) as [[t2 ev2]|] eqn:Hrun; cbn; [|discriminate].
    intros [= <- <-] Hin. eapply IH; [exact Hcs|exact Hrun|].
    eapply within_call; eauto.
Qed.

Lemma constructed_sum_tracks t0 :
  TouchPin_constructed zero_storage t0 → sum_tracks t0.
Proof.
  assert (Hzero : Forall is_uint zero_storage).
  { apply Forall_replicate. unfold is_uint. lia. }
  intros [pin period|pin period sel]; (split; [|split]).
  1,4: split; [reflexivity|cbn; unfold SAMPLE_BUFFER_SIZE; lia].
  1,3: exact Hzero.
  all: reflexivity.
Qed.

Lemma constructed_samples storage t0 :
  TouchPin_constructed storage t0 → _samples t0 = storage.
Proof. intros [pin period|pin period sel]; reflexivity. Qed.

(** C1, as amended.  For a sensor constructed over zero-filled storage, every
    run of calls returns, and afterwards the running sum is the sum of the ring
    buffer's contents reduced modulo 2^32, the width of [_sum].  It is the
    exact sum whenever that sum is below 2^32, and so whenever ten readings of
    the driver's range cannot reach 2^32 (the 16-bit readings of the touch
    hardware among them). *)
Theorem running_sum_tracks_buffer t0 cs :
  TouchPin_constructed zero_storage t0 →
  ∃ t ev, run TouchPin_call cs t0 = Some (t, ev) ∧
    _sum t = to_ulong (sumZ (_samples t)) ∧
    (sumZ (_samples t) < 2 ^ 32 → _sum t = sumZ (_samples t)) ∧
    (∀ B, 0 ≤ B → 10 * B < 2 ^ 32 → Forall (readings_within B) cs →
          _sum t = sumZ (_samples t)).
Proof.
  intros Hnew.
  destruct (run_invariant TouchPin_call sum_tracks (λ _, True) (λ _, True)
              (λ c t _, sum_tracks_call c t) cs t0) as (t & ev & Hrun & Htr & _).
  { apply Forall_true. auto. }
  { apply constructed_sum_tracks, Hnew. }
  destruct Htr as ([Hlen _] & Huint & Hsum).
  assert (Hnonneg : 0 ≤ sumZ (_samples t)).
  { apply (sumZ_bounds _ (2 ^ 32)). eapply Forall_impl; [exact Huint|].
    unfold is_uint. intros; lia. }
  exists t, ev. split; [exact Hrun|]. split; [exact Hsum|]. split.
  - intros Hlt. rewrite Hsum. apply to_ulong_id. split; assumption.
  - intros B HB0 HB Hcs. rewrite Hsum. apply to_ulong_id.
    assert (Hin : Forall (λ x, 0 ≤ x ≤ B) (_samples t)).
    { eapply (within_run B cs); [lia|exact Hcs|exact Hrun|].
      rewrite (constructed_samples _ _ Hnew). apply Forall_replicate. lia. }
    apply sumZ_bounds in Hin. rewrite Hlen in Hin. unfold is_ulong. lia.
Qed.

Lemma running_sum_tracks_buffer_witness :
  ∃ t ev,
    run TouchPin_call (map (λ n, PinUpdate (at_time n 6000)) (seqZ 1 10))
        (TouchPin_new zero_storage 0 0) = Some (t, ev) ∧
    _sum t = sumZ (_samples t).
Proof.
  destruct (running_sum_tracks_buffer (TouchPin_new zero_storage 0 0)
              (map (λ n, PinUpdate (at_time n 6000)) (seqZ 1 10)))
    as (t & ev & Hrun & _ & _ & Hexact).
  - constructor.
  - exists t, ev. split; [exact Hrun|].
    apply (Hexact 65535); [lia|lia|].
    repeat (apply Forall_cons; split; [intros pin; cbn; lia|]). constructor.
Defined.

(** C1 as stated fails twice over.  The constructors never write [_samples]:
    over storage that is not zero-filled the sum is off from construction on
    and stays so after a sample.  And [_sum] is 32 bits wide: two readings of
    2^31 over zero-filled storage wrap it to 0. *)
Lemma running_sum_not_exact :
  (let t := TouchPin_new [7; 0; 0; 0; 0; 0; 0; 0; 0; 0] 0 0 in
   _sum t = 0 ∧ sumZ (_samples t) = 7) ∧
  (∃ t ev,
     run TouchPin_call [PinUpdate (at_time 1 5)]
         (TouchPin_new [7; 0; 0; 0; 0; 0; 0; 0; 0; 0] 0 0) = Some (t, ev) ∧
     _sum t = 4294967294 ∧ sumZ (_samples t) = 5 ∧ _sum t ≠ sumZ (_samples t)) ∧
  (∃ t ev,
     run TouchPin_call [PinUpdate (at_time 1 (2 ^ 31)); PinUpdate (at_time 2 (2 ^ 31))]
         (TouchPin_new zero_storage 0 0) = Some (t, ev) ∧
     _sum t = 0 ∧ sumZ (_samples t) = 2 ^ 32 ∧ _sum t ≠ sumZ (_samples t)).
Proof.
  split; [|split].
  - cbn. split; reflexivity.
  - eexists _, _. split; [vm_compute; reflexivity|]. cbn.
    split; [reflexivity|]. split; [reflexivity|]. discriminate.
  - eexists _, _. split; [vm_compute; reflexivity|]. cbn.
    split; [reflexivity|]. split; [reflexivity|]. discriminate.
Qed.

(** ** The sample period *)




(** With the clock and the fields in range and the sum below 2^32, the test
    of the code is the comparison of the numbers themselves. *)
Lemma not_due_within_period env t :
  is_ulong (clock env) →
  0 ≤ _last_sample_time t → 0 ≤ _sample_period t →
  _last_sample_time t + _sample_period t < 2 ^ 32 →
  clock env ≤ _last_sample_time t + _sample_period t →
  TouchPin_update env t = Some (tt, t, []).
Proof.
  intros Hclock Hlast Hperiod Hfit Hle. apply TouchPin_update_idle. unfold due.
  rewrite (to_ulong_id (clock env)) by exact Hclock.
  rewrite to_ulong_id by (unfold is_ulong; lia).
  destruct (Z.gtb_spec (clock env) (_last_sample_time t + _sample_period t));
    [lia|reflexivity].
Qed.

(** ** The average and the threshold *)

(** C6.  [value()] is [_sum / SAMPLE_BUFFER_SIZE] with the buffer size 10 and
    the quotient truncated: the remainder it drops lies in [0, 10). *)
Theorem value_is_truncated_average t :
  is_ulong (_sum t) →
  value t = _sum t ÷ SAMPLE_BUFFER_SIZE ∧
  SAMPLE_BUFFER_SIZE = 10 ∧
  0 ≤ _sum t - 10 * value t < 10.
Proof.
  unfold is_ulong, value, SAMPLE_BUFFER_SIZE. intros Hsum.
  change (to_ulong 10) with 10.
  rewrite Z.quot_div_nonneg by lia.
  assert (Hdiv : 0 ≤ _sum t `div` 10 < 2 ^ 32).
  { split; [apply Z.div_pos; lia|]. apply Z.div_lt_upper_bound; lia. }
  rewrite to_uint_id by exact Hdiv.
  split; [reflexivity|]. split; [reflexivity|].
  pose proof (Z.div_mod (_sum t) 10). pose proof (Z.mod_pos_bound (_sum t) 10). lia.
Qed.

Lemma value_is_truncated_average_witness :
  let t := set_sum 60009 (TouchPin_new zero_storage 0 0) in
  value t = 6000 ∧ value t = _sum t ÷ SAMPLE_BUFFER_SIZE.
Proof.
  intros t.
  destruct (value_is_truncated_average t) as (Hv & _ & _).
  - unfold is_ulong. cbn. lia.
  - split; [rewrite Hv; reflexivity|exact Hv].
Defined.

(** C7.  [touching()] is true exactly when [value()] is strictly above
    [_touch_threshold]: one comparison, one threshold.  With ten readings of
    6000 in the buffer, their sum in [_sum] and the threshold at 5000, the
    value is 6000 and the sensor reports a touch. *)
Theorem touching_iff_above_threshold t :
  (touching t = true ↔ value t > _touch_threshold t) ∧
  (_samples t = replicate 10 6000 → _sum t = sumZ (_samples t) →
   _touch_threshold t = 5000 → value t = 6000 ∧ touching t = true).
Proof.
  split.
  - unfold touching. destruct (Z.gtb_spec (value t) (_touch_threshold t)).
    + split; [lia|reflexivity].
    + split; [discriminate|lia].
  - intros Hbuf Hsum Hthr. unfold touching, value.
    rewrite Hthr, Hsum, Hbuf. split; reflexivity.
Qed.

Lemma touching_iff_above_threshold_witness :
  let t := mkTouchPin 0 10 100 (replicate 10 6000) 0 60000 5000 (-1) in
  value t = 6000 ∧ touching t = true ∧ value t > _touch_threshold t.
Proof.
  intros t.
  destruct (touching_iff_above_threshold t) as [Hiff Hscn].
  destruct Hscn as [Hv Ht]; [reflexivity|reflexivity|reflexivity|].
  split; [exact Hv|]. split; [exact Ht|]. apply Hiff, Ht.
Defined.

(** The scenario of C7 as a run: ten samples of 6000 after construction over
    zero-filled storage, with the default threshold. *)
Example constant_reading_scenario :
  ∃ t ev,
    run TouchPin_call (map (λ n, PinUpdate (at_time n 6000)) (seqZ 1 10))
        (TouchPin_new zero_storage 0 0) = Some (t, ev) ∧
    _samples t = replicate 10 6000 ∧ _touch_threshold t = 5000 ∧
    value t = 6000 ∧ touching t = true.
Proof.
  eexists _, _. split; [vm_compute; reflexivity|]. cbn. repeat split.
Qed.

(** ** The pluck state machine *)

Lemma HarpString_update_step env h b sev :
  TouchPin_update env (base h) = Some (tt, b, sev) →
  HarpString_update env h =
    match HarpString_switch env (set_base b h) with
    | Some (u, h', nev) => Some (u, h', sev ++ nev)
    | None => None
    end.
Proof.
  intros Hup. unfold HarpString_update, bind, super. rewrite Hup. reflexivity.
Qed.

Ltac step_switch :=
  unfold HarpString_switch, note_on, note_off; step_monad.

Lemma switch_idle env h :
  _state h = STATE_IDLE →
  HarpString_switch env h =
    Some (tt, if touching (base h) then set_state STATE_ARMED h else h, []).
Proof.
  step_switch. intros ->. cbn. destruct (touching (base h)); reflexivity.
Qed.

Lemma switch_armed env h :
  _state h = STATE_ARMED →
  HarpString_switch env h =
    if touching (base h) then Some (tt, h, [])
    else Some (tt, set_on_time (to_ulong (clock env)) (set_state STATE_SOUNDING h),
               [SendNoteOn (_midi_note h) 100 1]).
Proof.
  step_switch. intros ->. cbn. destruct (touching (base h)); reflexivity.
Qed.

Lemma switch_sounding env h :
  _state h = STATE_SOUNDING →
  HarpString_switch env h =
    if touching (base h) then
      Some (tt, set_state STATE_ARMED h, [SendNoteOff (_midi_note h) 100 1])
    else if to_ulong (to_ulong (clock env) - _on_time h) >? _duration h then
      Some (tt, set_state STATE_IDLE (set_on_time 0 h), [SendNoteOff (_midi_note h) 100 1])
    else Some (tt, h, []).
Proof.
  step_switch. intros ->. cbn. destruct (touching (base h)); [reflexivity|].
  destruct (_ >? _); reflexivity.
Qed.

Lemma switch_default env h :
  ¬ valid_state (_state h) →
  HarpString_switch env h = Some (tt, h, [SerialPrintln "OOOOPS"]).
Proof.
  unfold valid_state. step_switch. intros Hbad.
  destruct (Z.eqb_spec (_state h) STATE_IDLE); [tauto|].
  destruct (Z.eqb_spec (_state h) STATE_ARMED); [tauto|].
  destruct (Z.eqb_spec (_state h) STATE_SOUNDING); [tauto|]. reflexivity.
Qed.

Lemma note_on_is_note e : is_note e = false → is_note_on e = false.
Proof. destruct e; cbn; congruence. Qed.

Lemma sensor_events_no_note env t u b sev :
  TouchPin_update env t = Some (u, b, sev) → List.filter is_note sev = [].
Proof.
  intros H. apply filter_quiet. eapply Forall_impl; [exact (TouchPin_update_quiet _ _ _ _ _ H)|].
  cbn. tauto.
Qed.

Lemma sensor_events_no_note_on env t u b sev :
  TouchPin_update env t = Some (u, b, sev) → List.filter is_note_on sev = [].
Proof.
  intros H. apply filter_quiet. eapply Forall_impl; [exact (TouchPin_update_quiet _ _ _ _ _ H)|].
  cbn. intros e [He _]. apply note_on_is_note, He.
Qed.

(** From Idle a touch arms the string and nothing is sent: the first touch
    never sounds a note. *)
Lemma idle_arms_silently env h b sev :
  _state h = STATE_IDLE →
  TouchPin_update env (base h) = Some (tt, b, sev) →
  HarpString_update env h =
    Some (tt, if touching b then set_state STATE_ARMED (set_base b h) else set_base b h,
          sev) ∧
  List.filter is_note sev = [].
Proof.
  intros Hst Hup. rewrite (HarpString_update_step _ _ _ _ Hup).
  rewrite switch_idle by exact Hst. cbn. rewrite app_nil_r.
  split; [reflexivity|]. exact (sensor_events_no_note _ _ _ _ _ Hup).
Qed.

(** C4.  From Armed, [update] sends a note-on exactly when the sensor, after
    its own update in this call, reports no touch.  The release sends one
    note-on and no other note event, stores the current [millis()] in
    [_on_time] and moves to Sounding; while the touch lasts nothing is sent
    and the string stays as it was. *)
Theorem armed_fires_on_release env h b sev :
  _state h = STATE_ARMED →
  TouchPin_update env (base h) = Some (tt, b, sev) →
  ∃ h' ev, HarpString_update env h = Some (tt, h', ev) ∧
    (List.filter is_note_on ev ≠ [] ↔ touching b = false) ∧
    (touching b = false →
       h' = mkHarpString b STATE_SOUNDING (to_ulong (clock env)) (_midi_note h) (_duration h) ∧
       ev = sev ++ [SendNoteOn (_midi_note h) 100 1] ∧
       List.filter is_note ev = [SendNoteOn (_midi_note h) 100 1]) ∧
    (touching b = true →
       h' = set_base b h ∧ ev = sev ∧ List.filter is_note ev = []).
Proof.
  intros Hst Hup. rewrite (HarpString_update_step _ _ _ _ Hup).
  rewrite switch_armed by exact Hst. cbn.
  pose proof (sensor_events_no_note _ _ _ _ _ Hup) as Hq.
  pose proof (sensor_events_no_note_on _ _ _ _ _ Hup) as Hqon.
  destruct (touching b); eexists _, _; (split; [reflexivity|]).
  - rewrite app_nil_r. split; [split; [congruence|discriminate]|].
    split; [discriminate|]. intros _. auto.
  - rewrite List.filter_app, Hqon. cbn. split; [split; [reflexivity|discriminate]|].
    split; [|discriminate]. intros _. rewrite List.filter_app, Hq. auto.
Qed.

Lemma armed_fires_on_release_witness :
  let h := mkHarpString (mkTouchPin 0 10 100 (replicate 10 0) 0 0 5000 (-1))
                        STATE_ARMED 0 60 2000 in
  HarpString_update (at_time 105 0) h =
    Some (tt, mkHarpString (base h) STATE_SOUNDING 105 60 2000, [SendNoteOn 60 100 1]).
Proof.
  intros h.
  destruct (armed_fires_on_release (at_time 105 0) h (base h) [])
    as (h' & ev & Hrun & _ & Hrel & _); [reflexivity|reflexivity|].
  destruct Hrel as (-> & -> & _); [reflexivity|]. exact Hrun.
Defined.

(** C5.  From Sounding, when the sensor reports a touch, [update] sends one
    note-off and no note-on, moves to Armed and leaves [_on_time] as it
    was. *)
Theorem sounding_retouch_rearms env h b sev :
  _state h = STATE_SOUNDING →
  TouchPin_update env (base h) = Some (tt, b, sev) →
  touching b = true →
  HarpString_update env h =
    Some (tt, mkHarpString b STATE_ARMED (_on_time h) (_midi_note h) (_duration h),
          sev ++ [SendNoteOff (_midi_note h) 100 1]) ∧
  List.filter is_note (sev ++ [SendNoteOff (_midi_note h) 100 1]) =
    [SendNoteOff (_midi_note h) 100 1] ∧
  List.filter is_note_on (sev ++ [SendNoteOff (_midi_note h) 100 1]) = [].
Proof.
  intros Hst Hup Htouch. rewrite (HarpString_update_step _ _ _ _ Hup).
  rewrite switch_sounding by exact Hst. cbn. rewrite Htouch.
  split; [reflexivity|].
  rewrite !List.filter_app, (sensor_events_no_note _ _ _ _ _ Hup),
    (sensor_events_no_note_on _ _ _ _ _ Hup).
  split; reflexivity.
Qed.

Lemma sounding_retouch_rearms_witness :
  let h := mkHarpString (mkTouchPin 0 10 1495 (replicate 10 6000) 0 60000 5000 (-1))
                        STATE_SOUNDING 1000 60 2000 in
  HarpString_update (at_time 1500 6000) h =
    Some (tt, mkHarpString (base h) STATE_ARMED 1000 60 2000, [SendNoteOff 60 100 1]).
Proof.
  intros h.
  destruct (sounding_retouch_rearms (at_time 1500 6000) h (base h) [])
    as [Hrun _]; [reflexivity|reflexivity|reflexivity|]. exact Hrun.
Defined.

(** C3.  From Sounding with no touch reported, [update] moves to Idle exactly
    when [millis() - _on_time], taken in [unsigned long], is strictly above
    [_duration].  Then it sends one note-off, clears [_on_time] and becomes
    Idle.  Otherwise, equality included, the switch changes nothing: the
    string's own fields are as before and no note event is sent; when no
    sample was due either, the whole object is as before and the call has
    caused no event at all. *)
Theorem sounding_release_times_out env h b sev :
  _state h = STATE_SOUNDING →
  TouchPin_update env (base h) = Some (tt, b, sev) →
  touching b = false →
  ∃ h' ev, HarpString_update env h = Some (tt, h', ev) ∧
    (_state h' = STATE_IDLE ↔
       to_ulong (to_ulong (clock env) - _on_time h) > _duration h) ∧
    (to_ulong (to_ulong (clock env) - _on_time h) > _duration h →
       h' = mkHarpString b STATE_IDLE 0 (_midi_note h) (_duration h) ∧
       ev = sev ++ [SendNoteOff (_midi_note h) 100 1] ∧
       List.filter is_note ev = [SendNoteOff (_midi_note h) 100 1]) ∧
    (to_ulong (to_ulong (clock env) - _on_time h) ≤ _duration h →
       h' = set_base b h ∧ ev = sev ∧ List.filter is_note ev = [] ∧
       (due env (base h) = false → h' = h ∧ ev = [])).
Proof.
  intros Hst Hup Htouch. rewrite (HarpString_update_step _ _ _ _ Hup).
  rewrite switch_sounding by exact Hst. cbn. rewrite Htouch.
  pose proof (sensor_events_no_note _ _ _ _ _ Hup) as Hq.
  destruct (Z.gtb_spec (to_ulong (to_ulong (clock env) - _on_time h)) (_duration h))
    as [Hgt|Hle]; eexists _, _; (split; [reflexivity|]).
  - split; [split; [lia|reflexivity]|]. split; [|lia].
    intros _. rewrite List.filter_app, Hq. auto.
  - cbn. rewrite app_nil_r. split; [split; [|lia]|].
    + rewrite Hst. discriminate.
    + split; [lia|]. intros _. do 3 (split; [auto|]). intros Hdue.
      rewrite (TouchPin_update_idle _ _ Hdue) in Hup. injection Hup as <- <-.
      split; [destruct h|]; reflexivity.
Qed.

Lemma sounding_release_times_out_witness :
  let h := mkHarpString (mkTouchPin 0 10 2995 (replicate 10 0) 0 0 5000 (-1))
                        STATE_SOUNDING 1000 60 2000 in
  HarpString_update (at_time 3000 0) h = Some (tt, h, []) ∧
  HarpString_update (at_time 3001 0) h =
    Some (tt, mkHarpString (base h) STATE_IDLE 0 60 2000, [SendNoteOff 60 100 1]).
Proof.
  intros h. split.
  - destruct (sounding_release_times_out (at_time 3000 0) h (base h) [])
      as (h' & ev & Hrun & _ & _ & Hstay); [reflexivity|reflexivity|reflexivity|].
    destruct Hstay as (-> & -> & _); [vm_compute; discriminate|]. exact Hrun.
  - destruct (sounding_release_times_out (at_time 3001 0) h (base h) [])
      as (h' & ev & Hrun & _ & Hout & _); [reflexivity|reflexivity|reflexivity|].
    destruct Hout as (-> & -> & _); [reflexivity|]. exact Hrun.
Defined.

(** C9.  One call of [update] sends at most one note event: nothing, one
    note-on or one note-off, whatever [_state] holds, whatever the sensor
    reports and whatever time has passed.  In Sounding a touch yields the one
    note-off of the re-touch branch, also when the sustain has run out. *)
Theorem update_emits_at_most_one_note env h b sev :
  TouchPin_update env (base h) = Some (tt, b, sev) →
  ∃ h' ev, HarpString_update env h = Some (tt, h', ev) ∧
    (List.filter is_note ev = [] ∨
     List.filter is_note ev = [SendNoteOn (_midi_note h) 100 1] ∨
     List.filter is_note ev = [SendNoteOff (_midi_note h) 100 1]) ∧
    (length (List.filter is_note ev) ≤ 1)%nat ∧
    (_state h = STATE_SOUNDING → touching b = true →
     List.filter is_note ev = [SendNoteOff (_midi_note h) 100 1]).
Proof.
  intros Hup. rewrite (HarpString_update_step _ _ _ _ Hup).
  pose proof (sensor_events_no_note _ _ _ _ _ Hup) as Hq.
  assert (Hcases :
    ∃ h' nev, HarpString_switch env (set_base b h) = Some (tt, h', nev) ∧
      (nev = [] ∨ nev = [SendNoteOn (_midi_note h) 100 1] ∨
       nev = [SendNoteOff (_midi_note h) 100 1] ∨ nev = [SerialPrintln "OOOOPS"]) ∧
      (_state h = STATE_SOUNDING → touching b = true →
       nev = [SendNoteOff (_midi_note h) 100 1])).
  { destruct (Z.eq_dec (_state h) STATE_IDLE) as [Hi|Hni].
    { rewrite switch_idle by exact Hi. eexists _, _. split; [reflexivity|].
      split; [auto|]. rewrite Hi. discriminate. }
    destruct (Z.eq_dec (_state h) STATE_ARMED) as [Ha|Hna].
    { rewrite switch_armed by exact Ha. cbn.
      destruct (touching b); eexists _, _; (split; [reflexivity|]);
        (split; [auto|]); rewrite Ha; discriminate. }
    destruct (Z.eq_dec (_state h) STATE_SOUNDING) as [Hs|Hns].
    { rewrite switch_sounding by exact Hs. cbn. destruct (touching b).
      - eexists _, _. split; [reflexivity|]. auto.
      - destruct (_ >? _); eexists _, _; (split; [reflexivity|]);
          (split; [auto|]); discriminate. }
    rewrite switch_default by (unfold valid_state; cbn; tauto).
    eexists _, _. split; [reflexivity|]. split; [auto 6|]. contradiction. }
  destruct Hcases as (h' & nev & -> & Hnev & Htouch).
  exists h', (sev ++ nev). split; [reflexivity|].
  rewrite List.filter_app, Hq. cbn.
  split; [|split].
  - destruct Hnev as [-> | [-> | [-> | ->]]]; cbn; auto.
  - destruct Hnev as [-> | [-> | [-> | ->]]]; cbn; lia.
  - intros Hs Ht. rewrite (Htouch Hs Ht). reflexivity.
Qed.

Lemma update_emits_at_most_one_note_witness :
  let h := mkHarpString (mkTouchPin 0 10 9995 (replicate 10 6000) 0 60000 5000 (-1))
                        STATE_SOUNDING 1000 60 2000 in
  ∃ h' ev, HarpString_update (at_time 10000 6000) h = Some (tt, h', ev) ∧
           List.filter is_note ev = [SendNoteOff 60 100 1].
Proof.
  intros h.
  destruct (update_emits_at_most_one_note (at_time 10000 6000) h (base h) [])
    as (h' & ev & Hrun & _ & _ & Hboth); [reflexivity|].
  exists h', ev. split; [exact Hrun|]. apply Hboth; reflexivity.
Defined.

(** ** Reachable states of a string *)

Lemma string_ok_update env h :
  string_ok h →
  ∃ h' ev, HarpString_update env h = Some (tt, h', ev) ∧ string_ok h' ∧
           Forall (λ e, is_println e = false) ev.
Proof.
  intros (Hbuf & Hvalid & Hidle).
  destruct (TouchPin_update_total env (base h) Hbuf) as (b & sev & Hup & Hb & Hquiet).
  rewrite (HarpString_update_step _ _ _ _ Hup).
  assert (Hsev : Forall (λ e, is_println e = false) sev).
  { eapply Forall_impl; [exact Hquiet|]. cbn. tauto. }
  assert (Hcases :
    ∃ h' nev, HarpString_switch env (set_base b h) = Some (tt, h', nev) ∧
      string_ok h' ∧ Forall (λ e, is_println e = false) nev).
  { destruct Hvalid as [Hi|[Ha|Hs]].
    - rewrite switch_idle by exact Hi. cbn.
      destruct (touching b); eexists _, _; (split; [reflexivity|]);
        (split; [|constructor]); (split; [exact Hb|split]); cbn.
      + right; left; reflexivity.
      + discriminate.
      + left; exact Hi.
      + exact Hidle.
    - rewrite switch_armed by exact Ha. cbn.
      destruct (touching b); eexists _, _; (split; [reflexivity|]);
        (split; [|repeat constructor]); (split; [exact Hb|split]); cbn.
      + right; left; exact Ha.
      + rewrite Ha. discriminate.
      + right; right; reflexivity.
      + discriminate.
    - rewrite switch_sounding by exact Hs. cbn.
      destruct (touching b); [|destruct (_ >? _)];
        eexists _, _; (split; [reflexivity|]);
        (split; [|repeat constructor]); (split; [exact Hb|split]); cbn.
      + right; left; reflexivity.
      + discriminate.
      + left; reflexivity.
      + reflexivity.
      + right; right; exact Hs.
      + rewrite Hs. discriminate. }
  destruct Hcases as (h' & nev & -> & Hok & Hnev).
  eexists _, _. split; [reflexivity|]. split; [exact Hok|].
  apply Forall_app. split; assumption.
Qed.

Lemma string_ok_call c h :
  string_ok h →
  ∃ h' ev, HarpString_call c h = Some (h', ev) ∧ string_ok h' ∧
           Forall (λ e, is_println e = false) ev.
Proof.
  intros Hok. destruct c as [env|v|v|v]; cbn.
  - destruct (string_ok_update env h Hok) as (h' & ev & -> & Hok' & Hev). cbn. eauto.
  - eexists _, _. split; [reflexivity|]. split; [exact Hok|constructor].
  - eexists _, _. split; [reflexivity|]. split; [exact Hok|constructor].
  - eexists _, _. split; [reflexivity|]. split; [exact Hok|constructor].
Qed.

Lemma constructed_string_ok storage h0 :
  length storage = 10%nat → HarpString_constructed storage h0 → string_ok h0.
Proof.
  intros Hlen [pin period|pin period sel]; (split; [|split]); cbn.
  1,4: split; [exact Hlen|cbn; unfold SAMPLE_BUFFER_SIZE; lia].
  1,3: left; reflexivity.
  all: reflexivity.
Qed.

Lemma string_ok_run storage h0 cs :
  length storage = 10%nat → HarpString_constructed storage h0 →
  ∃ h ev, run HarpString_call cs h0 = Some (h, ev) ∧ string_ok h ∧
          Forall (λ e, is_println e = false) ev.
Proof.
  intros Hlen Hnew.
  apply (run_invariant HarpString_call string_ok (λ _, True)).
  - intros c h _. apply string_ok_call.
  - apply Forall_true. auto.
  - eapply constructed_string_ok; eassumption.
Qed.

(** C10.  After construction, whatever the storage of the ring buffer held,
    every run of calls returns with [_state] equal to one of [STATE_IDLE],
    [STATE_ARMED] and [STATE_SOUNDING], and no call of the run has printed
    the line of the [default] branch. *)
Theorem state_stays_valid storage h0 cs :
  length storage = 10%nat →
  HarpString_constructed storage h0 →
  ∃ h ev, run HarpString_call cs h0 = Some (h, ev) ∧
    (_state h = STATE_IDLE ∨ _state h = STATE_ARMED ∨ _state h = STATE_SOUNDING) ∧
    List.filter is_println ev = [].
Proof.
  intros Hlen Hnew.
  destruct (string_ok_run storage h0 cs Hlen Hnew) as (h & ev & Hrun & (_ & Hvalid & _) & Hev).
  exists h, ev. split; [exact Hrun|]. split; [exact Hvalid|].
  apply filter_quiet, Hev.
Qed.

Lemma state_stays_valid_witness :
  ∃ h ev,
    run HarpString_call
        ([Update (at_time 1 60000)] ++ map (λ n, Update (at_time n 0)) (seqZ 2 10)
           ++ [SetDuration 500; Update (at_time 600 0)])
        (HarpString_new zero_storage 0 0) = Some (h, ev) ∧
    (_state h = STATE_IDLE ∨ _state h = STATE_ARMED ∨ _state h = STATE_SOUNDING) ∧
    List.filter is_println ev = [].
Proof.
  apply (state_stays_valid zero_storage); [reflexivity|constructor].
Defined.

(** C2, as amended.  After construction and after every run of calls, a
    string that is Idle has [_on_time] 0.  (An Armed string need not: the
    re-touch leaves [_on_time] as the note-on set it, and the value is not
    read again before the next note-on overwrites it.) *)
Theorem idle_has_no_note_on_time storage h0 cs :
  length storage = 10%nat →
  HarpString_constructed storage h0 →
  ∃ h ev, run HarpString_call cs h0 = Some (h, ev) ∧
          (_state h = STATE_IDLE → _on_time h = 0).
Proof.
  intros Hlen Hnew.
  destruct (string_ok_run storage h0 cs Hlen Hnew) as (h & ev & Hrun & (_ & _ & Hidle) & _).
  eauto.
Qed.

Lemma idle_has_no_note_on_time_witness :
  ∃ h ev,
    run HarpString_call
        ([Update (at_time 1 60000)] ++ map (λ n, Update (at_time n 0)) (seqZ 2 10)
           ++ [Update (at_time 2012 0)])
        (HarpString_new zero_storage 0 0) = Some (h, ev) ∧
    _state h = STATE_IDLE ∧ _on_time h = 0.
Proof.
  destruct (idle_has_no_note_on_time zero_storage (HarpString_new zero_storage 0 0)
              ([Update (at_time 1 60000)] ++ map (λ n, Update (at_time n 0)) (seqZ 2 10)
                 ++ [Update (at_time 2012 0)]))
    as (h & ev & Hrun & Hidle); [reflexivity|constructor|].
  assert (Hst : _state h = STATE_IDLE).
  { vm_compute in Hrun. injection Hrun as <- _. reflexivity. }
  exists h, ev. split; [exact Hrun|]. split; [exact Hst|exact (Hidle Hst)].
Defined.

(** C2 as stated fails in Armed.  A string plucked at time 11 and touched
    again at time 12 is Armed, not Sounding, and [_on_time] is still 11: the
    re-touch sends the note-off and re-arms without clearing it. *)
Lemma retouch_leaves_note_on_time :
  ∃ h ev,
    run HarpString_call
        ([Update (at_time 1 60000)] ++ map (λ n, Update (at_time n 0)) (seqZ 2 10)
           ++ [Update (at_time 12 60000)])
        (HarpString_new zero_storage 0 0) = Some (h, ev) ∧
    _state h = STATE_ARMED ∧ _state h ≠ STATE_SOUNDING ∧
    _on_time h = 11 ∧ _on_time h ≠ 0 ∧
    List.filter is_note ev = [SendNoteOn 0 100 1; SendNoteOff 0 100 1].
Proof.
  eexists _, _. split; [vm_compute; reflexivity|]. cbn.
  split; [reflexivity|]. split; [discriminate|]. split; [reflexivity|].
  split; [discriminate|reflexivity].
Qed.

(** * Further properties *)

(** ** The ring buffer as a window over the readings *)

Lemma unroll_step (s : list Z) (i : nat) (r : Z) :
  length s = 10%nat → (i < 10)%nat →
  drop (S i `mod` 10)%nat (<[i:=r]> s) ++ take (S i `mod` 10)%nat (<[i:=r]> s)
    = drop 1 (drop i s ++ take i s) ++ [r].
Proof.
  intros Hlen Hi.
  do 10 (destruct s as [|? s]; [discriminate Hlen|]).
  destruct s; [|discriminate Hlen].
  do 10 (destruct i as [|i]; [reflexivity|]). lia.
Qed.

Lemma next_index (idx : Z) :
  0 ≤ idx < 10 →
  to_uint (to_uint (idx + 1) `mod` SAMPLE_BUFFER_SIZE) = (idx + 1) `mod` 10 ∧
  Z.to_nat ((idx + 1) `mod` 10) = (S (Z.to_nat idx) `mod` 10)%nat.
Proof.
  intros H. unfold SAMPLE_BUFFER_SIZE.
  assert (Hcases : idx = 0 ∨ idx = 1 ∨ idx = 2 ∨ idx = 3 ∨ idx = 4 ∨
                   idx = 5 ∨ idx = 6 ∨ idx = 7 ∨ idx = 8 ∨ idx = 9) by lia.
  repeat (destruct Hcases as [-> | Hcases]; [split; reflexivity|]).
  subst. split; reflexivity.
Qed.

Lemma ring_of_index hist t : ring_of hist t → buffer_ok t.
Proof.
  intros (_ & Hlen & Hidx & _). split; [exact Hlen|].
  rewrite Hidx. unfold SAMPLE_BUFFER_SIZE. apply Z.mod_pos_bound. lia.
Qed.

Lemma ring_of_sampled env hist t old :
  ring_of hist t →
  ring_of (hist ++ [to_uint (touch env (_pin t))]) (sampled env t old).
Proof.
  intros Hring. pose proof (ring_of_index _ _ Hring) as [_ Hrange].
  destruct Hring as (Hhist & Hlen & Hidx & Hroll).
  unfold SAMPLE_BUFFER_SIZE in Hrange.
  destruct (next_index _ Hrange) as [Hnext Hnat].
  assert (Hn : (length (hist ++ [to_uint (touch env (_pin t))]) - 10
                = S (length hist - 10))%nat).
  { rewrite length_app. cbn. lia. }
  unfold ring_of. rewrite Hn. split; [rewrite length_app; lia|].
  split; [cbn; rewrite length_insert; exact Hlen|]. split.
  - cbn. rewrite Hnext, Hidx, Zplus_mod_idemp_l. f_equal. lia.
  - unfold unrolled in *. cbn. rewrite Hnext, Hnat.
    rewrite unroll_step by (rewrite ?Hlen; lia).
    rewrite Hroll, drop_drop, drop_app_le by lia.
    f_equal. f_equal. lia.
Qed.

Lemma ring_run cs : ∀ hist t,
  ring_of hist t →
  ∃ t' ev, run TouchPin_call cs t = Some (t', ev) ∧
           ring_of (hist ++ readings_taken cs t) t'.
Proof.
  induction cs as [|c cs IH]; intros hist t Hring; cbn.
  - rewrite app_nil_r. eauto.
  - destruct c as [env|v]; cbn.
    + destruct (due env t) eqn:Hdue.
      * pose proof (ring_of_index _ _ Hring) as [Hlen Hidx].
        destruct (lookup_lt_is_Some_2 (_samples t) (Z.to_nat (_index t))) as [old Hold].
        { rewrite Hlen. unfold SAMPLE_BUFFER_SIZE in Hidx. lia. }
        rewrite (TouchPin_update_sample _ _ _ Hdue Hold). cbn.
        destruct (IH _ _ (ring_of_sampled env hist t old Hring)) as (t' & ev & -> & Hring').
        cbn. rewrite <- app_assoc in Hring'. eauto.
      * rewrite (TouchPin_update_idle _ _ Hdue). cbn.
        destruct (IH _ _ Hring) as (t' & ev & -> & Hring'). cbn. eauto.
    + destruct (IH hist (set_threshold (to_uint v) t)) as (t' & ev & -> & Hring').
      { exact Hring. }
      cbn. eauto.
Qed.

Lemma constructed_ring storage t0 :
  length storage = 10%nat → TouchPin_constructed storage t0 → ring_of storage t0.
Proof.
  intros Hlen Hnew. unfold ring_of, unrolled.
  rewrite (constructed_samples _ _ Hnew), Hlen.
  destruct Hnew; cbn; rewrite app_nil_r; repeat split; lia.
Qed.

Lemma sumZ_app (l k : list Z) : sumZ (l ++ k) = sumZ l + sumZ k.
Proof.
  induction l as [|x l IH]; [reflexivity|].
  change ((x :: l) ++ k) with (x :: (l ++ k)). rewrite !sumZ_cons, IH. lia.
Qed.

Lemma sumZ_unrolled t : sumZ (unrolled t) = sumZ (_samples t).
Proof.
  unfold unrolled. rewrite sumZ_app, Z.add_comm, <- sumZ_app, take_drop. reflexivity.
Qed.

Lemma last_ten_after_zeros (rs : list Z) :
  sumZ (drop (length rs) (zero_storage ++ rs)) = sumZ (last_ten rs).
Proof.
  unfold last_ten, zero_storage.
  destruct (decide (10 ≤ length rs)%nat) as [Hge|Hlt].
  - rewrite drop_app_ge by (rewrite length_replicate; lia).
    rewrite length_replicate. reflexivity.
  - rewrite drop_app_le by (rewrite length_replicate; lia).
    replace (length rs - 10)%nat with 0%nat by lia.
    rewrite sumZ_app, drop_replicate. cbn [drop].
    assert (Hz : ∀ n, sumZ (replicate n 0) = 0).
    { induction n as [|n IHn]; [reflexivity|].
      change (replicate (S n) 0) with (0 :: replicate n 0). rewrite sumZ_cons, IHn. lia. }
    rewrite Hz, drop_0. lia.
Qed.

(** X1.  After any run from construction over ten slots of storage, the ring
    buffer read from the cursor on holds, oldest first, the last ten values of
    the storage followed by the readings taken; the cursor is the number of
    readings taken modulo 10.  From ten readings on the buffer holds exactly
    the last ten readings, whatever the storage was. *)
Theorem ring_holds_last_ten storage t0 cs :
  length storage = 10%nat →
  TouchPin_constructed storage t0 →
  ∃ t ev, run TouchPin_call cs t0 = Some (t, ev) ∧
    _index t = Z.of_nat (length (readings_taken cs t0)) `mod` 10 ∧
    unrolled t = drop (length (readings_taken cs t0)) (storage ++ readings_taken cs t0) ∧
    ((10 ≤ length (readings_taken cs t0))%nat →
     unrolled t = last_ten (readings_taken cs t0)).
Proof.
  intros Hlen Hnew.
  destruct (ring_run cs storage t0 (constructed_ring _ _ Hlen Hnew))
    as (t & ev & Hrun & _ & _ & Hidx & Hroll).
  assert (Hn : (length (storage ++ readings_taken cs t0) - 10
                = length (readings_taken cs t0))%nat).
  { rewrite length_app. lia. }
  rewrite Hn in Hidx, Hroll.
  exists t, ev. split; [exact Hrun|]. split; [exact Hidx|]. split; [exact Hroll|].
  intros Hten. rewrite Hroll. unfold last_ten.
  rewrite drop_app_ge by lia. rewrite Hlen. reflexivity.
Qed.

Lemma ring_holds_last_ten_witness :
  ∃ t ev,
    run TouchPin_call (map (λ n, PinUpdate (at_time n (100 * n))) (seqZ 1 12))
        (TouchPin_new [9; 9; 9; 9; 9; 9; 9; 9; 9; 9] 0 0) = Some (t, ev) ∧
    _index t = 2 ∧
    unrolled t = [300; 400; 500; 600; 700; 800; 900; 1000; 1100; 1200].
Proof.
  destruct (ring_holds_last_ten [9; 9; 9; 9; 9; 9; 9; 9; 9; 9]
              (TouchPin_new [9; 9; 9; 9; 9; 9; 9; 9; 9; 9] 0 0)
              (map (λ n, PinUpdate (at_time n (100 * n))) (seqZ 1 12)))
    as (t & ev & Hrun & Hidx & _ & Hlast); [reflexivity|constructor|].
  exists t, ev. split; [exact Hrun|]. split; [exact Hidx|].
  apply Hlast. vm_compute. lia.
Defined.

Lemma exact_sum_run t0 cs B t ev :
  TouchPin_constructed zero_storage t0 →
  0 ≤ B → 10 * B < 2 ^ 32 →
  Forall (readings_within B) cs →
  run TouchPin_call cs t0 = Some (t, ev) →
  _sum t = sumZ (_samples t) ∧ 0 ≤ sumZ (_samples t) ≤ 10 * B.
Proof.
  intros Hnew HB0 HB Hcs Hrun.
  destruct (run_invariant TouchPin_call sum_tracks (λ _, True) (λ _, True)
              (λ c t _, sum_tracks_call c t) cs t0) as (t' & ev' & Hrun' & Htr & _).
  { apply Forall_true. auto. }
  { apply constructed_sum_tracks, Hnew. }
  rewrite Hrun in Hrun'. injection Hrun' as <- <-.
  destruct Htr as ([Hlen _] & _ & Hsum).
  assert (Hin : Forall (λ x, 0 ≤ x ≤ B) (_samples t)).
  { eapply (within_run B cs); [lia|exact Hcs|exact Hrun|].
    rewrite (constructed_samples _ _ Hnew). apply Forall_replicate. lia. }
  apply sumZ_bounds in Hin. rewrite Hlen in Hin.
  split; [|lia]. rewrite Hsum. apply to_ulong_id. unfold is_ulong. lia.
Qed.

(** X2.  Over zero-filled storage and with readings no larger than a bound
    that ten of them cannot carry past 2^32, [value()] after any run is the
    sum of the last ten readings taken, divided by 10 and truncated: readings
    not yet taken count as 0.  It never exceeds the bound. *)
Theorem value_is_average_of_last_ten t0 cs B :
  TouchPin_constructed zero_storage t0 →
  0 ≤ B → 10 * B < 2 ^ 32 →
  Forall (readings_within B) cs →
  ∃ t ev, run TouchPin_call cs t0 = Some (t, ev) ∧
    value t = sumZ (last_ten (readings_taken cs t0)) ÷ 10 ∧
    0 ≤ value t ≤ B.
Proof.
  intros Hnew HB0 HB Hcs.
  destruct (ring_run cs zero_storage t0
              (constructed_ring zero_storage t0 (eq_refl : length zero_storage = 10%nat) Hnew))
    as (t & ev & Hrun & _ & _ & _ & Hroll).
  destruct (exact_sum_run t0 cs B t ev Hnew HB0 HB Hcs Hrun) as [Hsum Hbound].
  assert (Hn : (length (zero_storage ++ readings_taken cs t0) - 10
                = length (readings_taken cs t0))%nat).
  { rewrite length_app. cbn. lia. }
  rewrite Hn in Hroll.
  assert (Hwin : sumZ (_samples t) = sumZ (last_ten (readings_taken cs t0))).
  { rewrite <- sumZ_unrolled, Hroll. apply last_ten_after_zeros. }
  assert (Hval : value t = sumZ (_samples t) ÷ 10).
  { unfold value. rewrite Hsum. change (to_ulong SAMPLE_BUFFER_SIZE) with 10.
    rewrite Z.quot_div_nonneg by lia. apply to_uint_id. unfold is_uint. split.
    - apply Z.div_pos; lia.
    - apply Z.div_lt_upper_bound; lia. }
  exists t, ev. split; [exact Hrun|]. split; [rewrite Hval, Hwin; reflexivity|].
  rewrite Hval, Z.quot_div_nonneg by lia. split.
  - apply Z.div_pos; lia.
  - apply Z.div_le_upper_bound; lia.
Qed.

Lemma value_is_average_of_last_ten_witness :
  ∃ t ev,
    run TouchPin_call (map (λ n, PinUpdate (at_time n (100 * n))) (seqZ 1 12))
        (TouchPin_new zero_storage 0 0) = Some (t, ev) ∧
    value t = 750.
Proof.
  destruct (value_is_average_of_last_ten (TouchPin_new zero_storage 0 0)
              (map (λ n, PinUpdate (at_time n (100 * n))) (seqZ 1 12)) 65535)
    as (t & ev & Hrun & Hval & _); [constructor|lia|lia| |].
  - repeat (apply Forall_cons; split; [intros pin; cbn; lia|]). constructor.
  - exists t, ev. split; [exact Hrun|]. rewrite Hval. reflexivity.
Defined.

(** X3.  Whatever the storage of the ring buffer held at construction, after
    every run the running sum is, modulo 2^32, the sum of the buffer less the
    sum of that initial content. *)
Theorem running_sum_keeps_initial_offset storage t0 cs :
  length storage = 10%nat →
  TouchPin_constructed storage t0 →
  ∃ t ev, run TouchPin_call cs t0 = Some (t, ev) ∧
    _sum t = to_ulong (sumZ (_samples t) - sumZ storage).
Proof.
  intros Hlen Hnew.
  destruct (run_invariant TouchPin_call
              (λ t, buffer_ok t ∧ _sum t = to_ulong (sumZ (_samples t) - sumZ storage))
              (λ _, True) (λ _, True)) with (cs := cs) (s := t0)
    as (t & ev & Hrun & [_ Hsum] & _).
  - intros c t _ [Hok Hsum]. destruct c as [env|v]; cbn.
    + destruct (due env t) eqn:Hdue.
      * pose proof Hok as [Hl Hidx].
        destruct (lookup_lt_is_Some_2 (_samples t) (Z.to_nat (_index t))) as [old Hold].
        { rewrite Hl. unfold SAMPLE_BUFFER_SIZE in Hidx. lia. }
        rewrite (TouchPin_update_sample _ _ _ Hdue Hold). cbn.
        eexists _, _. split; [reflexivity|]. split; [|apply Forall_true; auto].
        split; [apply sampled_buffer_ok, Hok|]. cbn.
        rewrite (sumZ_insert _ _ _ _ Hold), Hsum.
        rewrite to_ulong_add_l, <- (to_ulong_add_l (_ - _)), to_ulong_sub_l, to_ulong_add_l.
        f_equal. lia.
      * rewrite (TouchPin_update_idle _ _ Hdue). cbn.
        eexists _, _. split; [reflexivity|]. split; [auto|constructor].
    + eexists _, _. split; [reflexivity|]. split; [auto|constructor].
  - apply Forall_true. auto.
  - split.
    + destruct Hnew; (split; [exact Hlen|cbn; unfold SAMPLE_BUFFER_SIZE; lia]).
    + rewrite (constructed_samples _ _ Hnew), Z.sub_diag. destruct Hnew; reflexivity.
  - eauto.
Qed.

Lemma running_sum_keeps_initial_offset_witness :
  ∃ t ev,
    run TouchPin_call (map (λ n, PinUpdate (at_time n 6000)) (seqZ 1 10))
        (TouchPin_new [7; 0; 0; 0; 0; 0; 0; 0; 0; 0] 0 0) = Some (t, ev) ∧
    _sum t = to_ulong (sumZ (_samples t) - 7).
Proof.
  apply (running_sum_keeps_initial_offset [7; 0; 0; 0; 0; 0; 0; 0; 0; 0]);
    [reflexivity|constructor].
Defined.

(** ** Calling [update] again *)

(** X4.  Calling [update] a second time within the same millisecond does
    nothing, whatever the pin would read and whether or not the first call
    sampled, as long as the clock value
    plus the sample period stays below 2^32.  When that sum wraps, a sensor
    that has just sampled samples again at once. *)
Theorem update_again_in_same_tick env env' t :
  buffer_ok t →
  is_ulong (_sample_period t) →
  clock env' = clock env →
  ∃ t1 ev1, TouchPin_update env t = Some (tt, t1, ev1) ∧
    (to_ulong (clock env) + _sample_period t < 2 ^ 32 →
     TouchPin_update env' t1 = Some (tt, t1, [])) ∧
    (due env t = true → 2 ^ 32 ≤ to_ulong (clock env) + _sample_period t →
     ∃ t2, TouchPin_update env' t1 =
             Some (tt, t2, select_events t ++ [TouchRead (_pin t)])).
Proof.
  intros Hok Hperiod Hsame. pose proof (to_ulong_range (clock env)) as Hclock.
  unfold is_ulong in Hperiod, Hclock.
  destruct (due env t) eqn:Hdue.
  - pose proof Hok as [Hlen Hidx].
    destruct (lookup_lt_is_Some_2 (_samples t) (Z.to_nat (_index t))) as [old Hold].
    { rewrite Hlen. unfold SAMPLE_BUFFER_SIZE in Hidx. lia. }
    eexists _, _. split; [apply (TouchPin_update_sample _ _ _ Hdue Hold)|]. split.
    + intros Hfit. apply TouchPin_update_idle. unfold due. cbn. rewrite Hsame.
      rewrite (to_ulong_id (_ + _)) by (unfold is_ulong; lia).
      destruct (Z.gtb_spec (to_ulong (clock env))
                  (to_ulong (clock env) + _sample_period t)); [lia|reflexivity].
    + intros _ Hwrap.
      pose proof (sampled_buffer_ok env t old Hok) as [Hlen' Hidx'].
      destruct (lookup_lt_is_Some_2 (_samples (sampled env t old))
                  (Z.to_nat (_index (sampled env t old)))) as [old' Hold'].
      { rewrite Hlen'. unfold SAMPLE_BUFFER_SIZE in Hidx'. lia. }
      eexists. apply (TouchPin_update_sample env' (sampled env t old) old'); [|exact Hold'].
      unfold due. cbn. rewrite Hsame.
      assert (Hsum : to_ulong (to_ulong (clock env) + _sample_period t)
                     = to_ulong (clock env) + _sample_period t - 2 ^ 32).
      { unfold to_ulong at 1. unfold to_unsigned.
        symmetry. apply (Z.mod_unique_pos _ _ 1); lia. }
      rewrite Hsum.
      destruct (Z.gtb_spec (to_ulong (clock env))
                  (to_ulong (clock env) + _sample_period t - 2 ^ 32)); [reflexivity|lia].
  - eexists _, _. split; [apply (TouchPin_update_idle _ _ Hdue)|]. split.
    + intros _. apply TouchPin_update_idle. unfold due in *. rewrite Hsame. exact Hdue.
    + discriminate.
Qed.

Lemma update_again_in_same_tick_witness :
  let t := TouchPin_new zero_storage 0 20 in
  ∃ t1 ev1, TouchPin_update (at_time 100 6000) t = Some (tt, t1, ev1) ∧
            TouchPin_update (at_time 100 7000) t1 = Some (tt, t1, []).
Proof.
  intros t.
  destruct (update_again_in_same_tick (at_time 100 6000) (at_time 100 7000) t)
    as (t1 & ev1 & Hone & Hagain & _).
  - split; [reflexivity|cbn; unfold SAMPLE_BUFFER_SIZE; lia].
  - vm_compute. split; [discriminate|reflexivity].
  - reflexivity.
  - exists t1, ev1. split; [exact Hone|]. apply Hagain. vm_compute. reflexivity.
Defined.

(** ** The multiplexer *)

Lemma select_line_kept c t t' ev :
  TouchPin_call c t = Some (t', ev) → _select_line t' = _select_line t.
Proof.
  destruct c as [env|v]; cbn.
  - destruct (TouchPin_update env t) as [[[u b] sev]|] eqn:Hup; [|discriminate].
    cbn. intros [= <- <-].
    apply TouchPin_update_inv in Hup as [(_ & -> & _)|(_ & old & _ & -> & _)]; reflexivity.
  - intros [= <- <-]. reflexivity.
Qed.

Lemma unselected_run cs : ∀ t,
  buffer_ok t → _select_line t < 0 →
  ∃ t' ev, run TouchPin_call cs t = Some (t', ev) ∧ List.filter is_digital_write ev = [].
Proof.
  intros t Hok Hneg.
  destruct (run_invariant TouchPin_call (λ t, buffer_ok t ∧ _select_line t < 0)
              (λ _, True) (λ e, is_digital_write e = false)) with (cs := cs) (s := t)
    as (t' & ev & Hrun & _ & Hev).
  - clear t Hok Hneg. intros c t _ [Hok Hneg]. destruct c as [env|v]; cbn.
    + destruct (TouchPin_update_total env t Hok) as (b & sev & Hup & Hb & _).
      rewrite Hup. cbn. eexists _, _. split; [reflexivity|]. split.
      * split; [exact Hb|].
        apply TouchPin_update_inv in Hup as [(_ & -> & _)|(_ & old & _ & -> & _)];
          exact Hneg.
      * apply TouchPin_update_inv in Hup as [(_ & _ & ->)|(_ & old & _ & _ & ->)];
          [constructor|].
        unfold select_events. destruct (Z.geb_spec (_select_line t) 0); [lia|].
        repeat constructor.
    + eexists _, _. split; [reflexivity|]. split; [auto|constructor].
  - apply Forall_true. auto.
  - auto.
  - exists t', ev. split; [exact Hrun|]. apply filter_quiet, Hev.
Qed.

(** X5.  A sensor constructed without a select line never writes to the
    multiplexer pins, and neither does one constructed with a select line of
    2^31 or more: stored in the [int] field it is negative, and the sensor
    reads its pin as if wired directly. *)
Theorem unselected_sensor_never_writes storage pin period sel cs :
  length storage = 10%nat →
  (∃ t ev, run TouchPin_call cs (TouchPin_new storage pin period) = Some (t, ev) ∧
           List.filter is_digital_write ev = []) ∧
  (2 ^ 31 ≤ to_uint sel →
   ∃ t ev, run TouchPin_call cs (TouchPin_new_select storage pin period sel) = Some (t, ev) ∧
           List.filter is_digital_write ev = []).
Proof.
  intros Hlen. split.
  - apply unselected_run; [split; [exact Hlen|cbn; unfold SAMPLE_BUFFER_SIZE; lia]|].
    cbn. reflexivity.
  - intros Hbig. apply unselected_run;
      [split; [exact Hlen|cbn; unfold SAMPLE_BUFFER_SIZE; lia]|].
    cbn. pose proof (to_uint_range sel) as Hr. unfold is_uint in Hr.
    unfold to_int, to_signed.
    replace (to_uint sel + 2 ^ (32 - 1)) with (to_uint sel - 2 ^ 31 + 1 * 2 ^ 32) by lia.
    rewrite Z_mod_plus_full, Z.mod_small by lia. lia.
Qed.

Lemma unselected_sensor_never_writes_witness :
  ∃ t ev,
    run TouchPin_call [PinUpdate (at_time 1 6000); PinUpdate (at_time 2 6000)]
        (TouchPin_new_select zero_storage 0 0 (2 ^ 31 + 3)) = Some (t, ev) ∧
    List.filter is_digital_write ev = [].
Proof.
  destruct (unselected_sensor_never_writes zero_storage 0 0 (2 ^ 31 + 3)
              [PinUpdate (at_time 1 6000); PinUpdate (at_time 2 6000)]) as [_ Hsel];
    [reflexivity|].
  apply Hsel. vm_compute. discriminate.
Defined.

Lemma land_one (x : Z) : Z.land x 1 = x `mod` 2.
Proof. apply (Z.land_ones x 1). lia. Qed.

(** X6.  A sensor with a select line of 0 or more, when it samples, writes
    four bits to the pins SEL0 to SEL3 in this order and then reads its pin
    once.  The bits are those of the select line, lowest first: they recompose
    it modulo 16, so lines that differ by a multiple of 16 select the same
    input.  A select line below 2^31 given to the constructor is stored as it
    is. *)
Theorem select_lines_carry_low_bits env t :
  buffer_ok t →
  due env t = true →
  0 ≤ _select_line t →
  (∃ t1 b0 b1 b2 b3,
     TouchPin_update env t =
       Some (tt, t1, [DigitalWrite 2 b0; DigitalWrite 3 b1; DigitalWrite 4 b2;
                      DigitalWrite 5 b3; TouchRead (_pin t)]) ∧
     0 ≤ b0 ≤ 1 ∧ 0 ≤ b1 ≤ 1 ∧ 0 ≤ b2 ≤ 1 ∧ 0 ≤ b3 ≤ 1 ∧
     b0 + 2 * b1 + 4 * b2 + 8 * b3 = _select_line t `mod` 16) ∧
  (∀ storage pin period sel,
     0 ≤ sel < 2 ^ 31 →
     _select_line (TouchPin_new_select storage pin period sel) = sel).
Proof.
  intros [Hlen Hidx] Hdue Hsel. split.
  - destruct (lookup_lt_is_Some_2 (_samples t) (Z.to_nat (_index t))) as [old Hold].
    { rewrite Hlen. unfold SAMPLE_BUFFER_SIZE in Hidx. lia. }
    rewrite (TouchPin_update_sample _ _ _ Hdue Hold).
    unfold select_events. destruct (Z.geb_spec (_select_line t) 0); [|lia].
    eexists _, _, _, _, _. split; [reflexivity|].
    rewrite !land_one, !Z.shiftr_div_pow2 by lia.
    change (2 ^ 1) with 2. change (2 ^ 2) with 4. change (2 ^ 3) with 8.
    generalize (_select_line t). intros s.
    pose proof (Z.mod_pos_bound s 2). pose proof (Z.mod_pos_bound (s `div` 2) 2).
    pose proof (Z.mod_pos_bound (s `div` 4) 2). pose proof (Z.mod_pos_bound (s `div` 8) 2).
    repeat (split; [lia|]).
    Z.div_mod_to_equations. lia.
  - intros storage pin period sel Hrange. cbn.
    rewrite to_uint_id by (unfold is_uint; lia).
    unfold to_int, to_signed. change (2 ^ (32 - 1)) with (2 ^ 31).
    rewrite Z.mod_small by lia. lia.
Qed.

Lemma select_lines_carry_low_bits_witness :
  let t := TouchPin_new_select zero_storage 7 0 21 in
  ∃ t1, TouchPin_update (at_time 1 6000) t =
          Some (tt, t1, [DigitalWrite 2 1; DigitalWrite 3 0; DigitalWrite 4 1;
                         DigitalWrite 5 0; TouchRead 7]).
Proof.
  intros t.
  destruct (select_lines_carry_low_bits (at_time 1 6000) t) as [Hbits _].
  - split; [reflexivity|cbn; unfold SAMPLE_BUFFER_SIZE; lia].
  - reflexivity.
  - vm_compute. discriminate.
  - destruct Hbits as (t1 & b0 & b1 & b2 & b3 & Hrun & _).
    exists t1. rewrite Hrun. vm_compute in Hrun. injection Hrun as _ <- <- <- <-.
    reflexivity.
Defined.

(** ** The string and its sensor *)

Lemma sensor_events_are_sensor env t u b sev :
  TouchPin_update env t = Some (u, b, sev) → List.filter is_sensor_event sev = sev.
Proof.
  intros H. apply TouchPin_update_inv in H as [(_ & _ & ->)|(_ & old & _ & _ & ->)];
    [reflexivity|].
  unfold select_events. destruct (_select_line t >=? 0); reflexivity.
Qed.

(** All that one [update] of a string can do, once its sensor has stepped. *)
Lemma HarpString_update_cases env h b sev :
  TouchPin_update env (base h) = Some (tt, b, sev) →
  ∃ h' nev, HarpString_update env h = Some (tt, h', sev ++ nev) ∧
    ((h' = set_base b h ∧ nev = []) ∨
     (_state h = STATE_IDLE ∧ h' = set_state STATE_ARMED (set_base b h) ∧ nev = []) ∨
     (_state h = STATE_ARMED ∧
      h' = set_on_time (to_ulong (clock env)) (set_state STATE_SOUNDING (set_base b h)) ∧
      nev = [SendNoteOn (_midi_note h) 100 1]) ∨
     (_state h = STATE_SOUNDING ∧ h' = set_state STATE_ARMED (set_base b h) ∧
      nev = [SendNoteOff (_midi_note h) 100 1]) ∨
     (_state h = STATE_SOUNDING ∧
      h' = set_state STATE_IDLE (set_on_time 0 (set_base b h)) ∧
      nev = [SendNoteOff (_midi_note h) 100 1]) ∨
     (¬ valid_state (_state h) ∧ h' = set_base b h ∧ nev = [SerialPrintln "OOOOPS"])).
Proof.
  intros Hup. rewrite (HarpString_update_step _ _ _ _ Hup).
  destruct (Z.eq_dec (_state h) STATE_IDLE) as [Hi|Hni].
  { rewrite switch_idle by exact Hi. cbn.
    destruct (touching b); eexists _, _; (split; [reflexivity|]); auto 12. }
  destruct (Z.eq_dec (_state h) STATE_ARMED) as [Ha|Hna].
  { rewrite switch_armed by exact Ha. cbn.
    destruct (touching b); eexists _, _; (split; [reflexivity|]); auto 12. }
  destruct (Z.eq_dec (_state h) STATE_SOUNDING) as [Hs|Hns].
  { rewrite switch_sounding by exact Hs. cbn.
    destruct (touching b); [|destruct (_ >? _)];
      eexists _, _; (split; [reflexivity|]); auto 12. }
  assert (Hbad : ¬ valid_state (_state h)) by (unfold valid_state; tauto).
  rewrite switch_default by exact Hbad.
  eexists _, _. split; [reflexivity|]. auto 12.
Qed.

Lemma HarpString_update_inv env h u h' ev :
  HarpString_update env h = Some (u, h', ev) →
  ∃ sev, TouchPin_update env (base h) = Some (tt, base h', sev) ∧
         List.filter is_sensor_event ev = sev.
Proof.
  intros Hrun. destruct u.
  destruct (TouchPin_update env (base h)) as [[[[] b] sev]|] eqn:Hup.
  - destruct (HarpString_update_cases env h b sev Hup) as (h1 & nev & Hrun1 & Hcases).
    rewrite Hrun1 in Hrun. injection Hrun as <- <-.
    exists sev. rewrite List.filter_app, (sensor_events_are_sensor _ _ _ _ _ Hup).
    destruct Hcases as [(-> & ->)|[(_ & -> & ->)|[(_ & -> & ->)|[(_ & -> & ->)|
                        [(_ & -> & ->)|(_ & -> & ->)]]]]];
      cbn; rewrite app_nil_r; auto.
  - unfold HarpString_update, bind, super in Hrun. rewrite Hup in Hrun. discriminate.
Qed.

(** X7.  The sensor inside a string goes through a run exactly as a sensor on
    its own goes through the calls that concern it: the state machine and the
    setters of the string write no sensor field and cause no multiplexer
    write and no read. *)
Theorem string_drives_its_sensor cs : ∀ h h' ev,
  run HarpString_call cs h = Some (h', ev) →
  run TouchPin_call (concat (map sensor_call cs)) (base h)
    = Some (base h', List.filter is_sensor_event ev).
Proof.
  induction cs as [|c cs IH]; intros h h' ev; cbn.
  - intros [= <- <-]. reflexivity.
  - destruct (HarpString_call c h) as [[h1 ev1]|] eqn:Hcall; cbn; [|discriminate].
    destruct (run HarpString_call cs h1) as [[h2 ev2]|] eqn:Hrest; cbn; [|discriminate].
    intros [= <- <-]. rewrite List.filter_app.
    specialize (IH _ _ _ Hrest).
    destruct c as [env|v|v|v]; cbn in Hcall |- *.
    + destruct (HarpString_update env h) as [[[u hu] evu]|] eqn:Hup; [|discriminate].
      cbn in Hcall. injection Hcall as <- <-.
      destruct (HarpString_update_inv _ _ _ _ _ Hup) as (sev & -> & ->). cbn.
      rewrite IH. reflexivity.
    + injection Hcall as <- <-. cbn. cbn in IH. rewrite IH. reflexivity.
    + injection Hcall as <- <-. exact IH.
    + injection Hcall as <- <-. exact IH.
Qed.

Lemma string_drives_its_sensor_witness :
  ∃ h ev,
    run HarpString_call [Update (at_time 1 60000); SetMidiNote 60; Update (at_time 2 0)]
        (HarpString_new zero_storage 0 0) = Some (h, ev) ∧
    run TouchPin_call [PinUpdate (at_time 1 60000); PinUpdate (at_time 2 0)]
        (TouchPin_new zero_storage 0 0) = Some (base h, List.filter is_sensor_event ev).
Proof.
  eexists _, _. split; [vm_compute; reflexivity|].
  apply (string_drives_its_sensor
           [Update (at_time 1 60000); SetMidiNote 60; Update (at_time 2 0)]
           (HarpString_new zero_storage 0 0)).
  vm_compute. reflexivity.
Defined.

(** ** The notes of a run *)

Lemma track_notes_app (b : bool) (ev1 ev2 : list Event) :
  track_notes b (ev1 ++ ev2) = b' ← track_notes b ev1; track_notes b' ev2.
Proof.
  revert b. induction ev1 as [|e ev1 IH]; intros b; [reflexivity|].
  destruct e; cbn; try apply IH; destruct b; cbn; try reflexivity; apply IH.
Qed.

Lemma track_notes_quiet (b : bool) (ev : list Event) :
  Forall (λ e, is_note e = false ∧ is_println e = false) ev → track_notes b ev = Some b.
Proof.
  induction 1 as [|e ev [He _] _ IH]; [reflexivity|].
  destruct e; cbn in *; try discriminate; exact IH.
Qed.

Lemma update_tracks env h :
  string_ok h →
  ∃ h' ev, HarpString_update env h = Some (tt, h', ev) ∧ string_ok h' ∧
    track_notes (_state h =? STATE_SOUNDING) ev = Some (_state h' =? STATE_SOUNDING).
Proof.
  intros Hok. destruct (string_ok_update env h Hok) as (h' & ev & Hrun & Hok' & _).
  exists h', ev. split; [exact Hrun|]. split; [exact Hok'|].
  destruct Hok as (Hbuf & Hvalid & _).
  destruct (TouchPin_update_total env (base h) Hbuf) as (b & sev & Hup & _ & Hquiet).
  destruct (HarpString_update_cases env h b sev Hup) as (h1 & nev & Hrun1 & Hcases).
  rewrite Hrun1 in Hrun. injection Hrun as <- <-.
  rewrite track_notes_app, (track_notes_quiet _ _ Hquiet). cbn.
  destruct Hcases as [(-> & ->)|[(Hs & -> & ->)|[(Hs & -> & ->)|[(Hs & -> & ->)|
                      [(Hs & -> & ->)|(Hbad & _)]]]]]; cbn; try rewrite Hs; try reflexivity.
  contradiction.
Qed.

Lemma tracks_run cs : ∀ h,
  string_ok h →
  ∃ h' ev, run HarpString_call cs h = Some (h', ev) ∧ string_ok h' ∧
    track_notes (_state h =? STATE_SOUNDING) ev = Some (_state h' =? STATE_SOUNDING).
Proof.
  induction cs as [|c cs IH]; intros h Hok; cbn.
  - eauto.
  - assert (Hcall : ∃ h1 ev1, HarpString_call c h = Some (h1, ev1) ∧ string_ok h1 ∧
              track_notes (_state h =? STATE_SOUNDING) ev1
                = Some (_state h1 =? STATE_SOUNDING)).
    { destruct c as [env|v|v|v]; cbn.
      - destruct (update_tracks env h Hok) as (h1 & ev1 & -> & Hok1 & Htr). cbn. eauto.
      - eexists _, _. split; [reflexivity|]. split; [exact Hok|reflexivity].
      - eexists _, _. split; [reflexivity|]. split; [exact Hok|reflexivity].
      - eexists _, _. split; [reflexivity|]. split; [exact Hok|reflexivity]. }
    destruct Hcall as (h1 & ev1 & -> & Hok1 & Htr1). cbn.
    destruct (IH h1 Hok1) as (h2 & ev2 & -> & Hok2 & Htr2). cbn.
    eexists _, _. split; [reflexivity|]. split; [exact Hok2|].
    rewrite track_notes_app, Htr1. exact Htr2.
Qed.

(** X8.  In every run from construction the note events alternate: a note-on
    is sent only while no note is sounding and a note-off only while one is,
    so the first is a note-on and no two of a kind follow each other.  The
    string is in Sounding at the end exactly when the last note event was a
    note-on. *)
Theorem notes_alternate storage h0 cs :
  length storage = 10%nat →
  HarpString_constructed storage h0 →
  ∃ h ev, run HarpString_call cs h0 = Some (h, ev) ∧
    track_notes false ev = Some (_state h =? STATE_SOUNDING).
Proof.
  intros Hlen Hnew.
  destruct (tracks_run cs h0 (constructed_string_ok _ _ Hlen Hnew)) as (h & ev & Hrun & _ & Htr).
  exists h, ev. split; [exact Hrun|]. destruct Hnew; exact Htr.
Qed.

Lemma notes_alternate_witness :
  ∃ h ev,
    run HarpString_call
        ([Update (at_time 1 60000)] ++ map (λ n, Update (at_time n 0)) (seqZ 2 10)
           ++ [Update (at_time 12 60000)])
        (HarpString_new zero_storage 0 0) = Some (h, ev) ∧
    track_notes false ev = Some (_state h =? STATE_SOUNDING).
Proof.
  apply (notes_alternate zero_storage); [reflexivity|constructor].
Defined.

Lemma to_byte_range z : 0 ≤ to_byte z < 256.
Proof. unfold to_byte, to_unsigned. apply Z.mod_pos_bound. lia. Qed.

(** X9.  Every note event of a run from construction has velocity 100 and
    channel 1, and its note number is a byte: [set_midi_note] keeps the low
    eight bits of what it is given. *)
Theorem notes_have_fixed_shape storage h0 cs :
  length storage = 10%nat →
  HarpString_constructed storage h0 →
  ∃ h ev, run HarpString_call cs h0 = Some (h, ev) ∧ Forall note_shape ev.
Proof.
  intros Hlen Hnew.
  destruct (run_invariant HarpString_call (λ h, string_ok h ∧ 0 ≤ _midi_note h < 256)
              (λ _, True) note_shape) with (cs := cs) (s := h0)
    as (h & ev & Hrun & _ & Hev).
  - intros c h _ [Hok Hnote]. destruct c as [env|v|v|v]; cbn.
    + destruct (string_ok_update env h Hok) as (h' & ev & Hrun & Hok' & _).
      rewrite Hrun. cbn. eexists _, _. split; [reflexivity|].
      destruct Hok as (Hbuf & _).
      destruct (TouchPin_update_total env (base h) Hbuf) as (b & sev & Hup & _ & Hquiet).
      destruct (HarpString_update_cases env h b sev Hup) as (h1 & nev & Hrun1 & Hcases).
      rewrite Hrun1 in Hrun. injection Hrun as <- <-.
      assert (Hsev : Forall note_shape sev).
      { eapply Forall_impl; [exact Hquiet|]. intros e [He _].
        destruct e; cbn in *; try discriminate; exact I. }
      split.
      * split; [exact Hok'|].
        destruct Hcases as [(-> & _)|[(_ & -> & _)|[(_ & -> & _)|[(_ & -> & _)|
                            [(_ & -> & _)|(_ & -> & _)]]]]]; exact Hnote.
      * apply Forall_app. split; [exact Hsev|].
        destruct Hcases as [(_ & ->)|[(_ & _ & ->)|[(_ & _ & ->)|[(_ & _ & ->)|
                            [(_ & _ & ->)|(_ & _ & ->)]]]]]; repeat constructor; cbn; lia.
    + eexists _, _. split; [reflexivity|]. split; [auto|constructor].
    + eexists _, _. split; [reflexivity|]. split; [|constructor].
      split; [exact Hok|]. cbn. apply to_byte_range.
    + eexists _, _. split; [reflexivity|]. split; [auto|constructor].
  - apply Forall_true. auto.
  - split; [eapply constructed_string_ok; eassumption|]. destruct Hnew; cbn; lia.
  - eauto.
Qed.

Lemma notes_have_fixed_shape_witness :
  ∃ h ev,
    run HarpString_call
        ([SetMidiNote 316; Update (at_time 1 60000)]
           ++ map (λ n, Update (at_time n 0)) (seqZ 2 10) ++ [Update (at_time 12 60000)])
        (HarpString_new zero_storage 0 0) = Some (h, ev) ∧
    Forall note_shape ev.
Proof.
  apply (notes_have_fixed_shape zero_storage); [reflexivity|constructor].
Defined.

(** X10.  The setters act on a note that is already sounding.  After
    [set_midi_note] the note-off of a re-touch carries the new note number,
    not the one the note-on was sent with; after [set_duration] the sustain
    of the sounding note is judged against the new duration. *)
Theorem setters_reach_sounding_note env h b sev :
  _state h = STATE_SOUNDING →
  TouchPin_update env (base h) = Some (tt, b, sev) →
  (∀ n, touching b = true →
     run HarpString_call [SetMidiNote n; Update env] h =
       Some (mkHarpString b STATE_ARMED (_on_time h) (to_byte n) (_duration h),
             sev ++ [SendNoteOff (to_byte n) 100 1])) ∧
  (∀ d, touching b = false →
     ∃ h' ev, run HarpString_call [SetDuration d; Update env] h = Some (h', ev) ∧
       (_state h' = STATE_IDLE ↔
          to_ulong (to_ulong (clock env) - _on_time h) > to_ulong d)).
Proof.
  intros Hst Hup. split.
  - intros n Htouch. cbn.
    rewrite (HarpString_update_step env (set_note (to_byte n) h) b sev Hup).
    rewrite switch_sounding by exact Hst. cbn. rewrite Htouch. cbn.
    rewrite app_nil_r. reflexivity.
  - intros d Htouch. cbn.
    rewrite (HarpString_update_step env (set_dur (to_ulong d) h) b sev Hup).
    rewrite switch_sounding by exact Hst. cbn. rewrite Htouch.
    destruct (Z.gtb_spec (to_ulong (to_ulong (clock env) - _on_time h)) (to_ulong d));
      cbn; eexists _, _; (split; [reflexivity|]); cbn.
    + split; [lia|reflexivity].
    + rewrite Hst. split; [discriminate|lia].
Qed.

Lemma setters_reach_sounding_note_witness :
  let h := mkHarpString (mkTouchPin 0 10 1495 (replicate 10 6000) 0 60000 5000 (-1))
                        STATE_SOUNDING 1000 60 2000 in
  run HarpString_call [SetMidiNote 62; Update (at_time 1500 6000)] h =
    Some (mkHarpString (base h) STATE_ARMED 1000 62 2000, [SendNoteOff 62 100 1]).
Proof.
  intros h.
  destruct (setters_reach_sounding_note (at_time 1500 6000) h (base h) []) as [Hnote _];
    [reflexivity|reflexivity|].
  apply (Hnote 62). reflexivity.
Defined.

(** ** Ranges *)

Lemma fields_in_range_call c t t' ev :
  TouchPin_call c t = Some (t', ev) → fields_in_range t → fields_in_range t'.
Proof.
  unfold fields_in_range. destruct c as [env|v]; cbn.
  - destruct (TouchPin_update env t) as [[[u b] sev]|] eqn:Hup; [|discriminate].
    cbn. intros [= <- <-].
    apply TouchPin_update_inv in Hup as [(_ & -> & _)|(_ & old & _ & -> & _)]; [auto|].
    cbn. intros (Hp & _ & _ & Hrest).
    split; [exact Hp|]. split; [apply to_ulong_range|]. split; [apply to_ulong_range|].
    exact Hrest.
  - intros [= <- <-]. cbn. intros (Hp & Hl & Hs & _ & Hrest).
    split; [exact Hp|]. split; [exact Hl|]. split; [exact Hs|].
    split; [apply to_uint_range|exact Hrest].
Qed.

Lemma to_int_range z : -2 ^ 31 ≤ to_int z < 2 ^ 31.
Proof.
  unfold to_int, to_signed. change (2 ^ (32 - 1)) with (2 ^ 31).
  pose proof (Z.mod_pos_bound (z + 2 ^ 31) (2 ^ 32)). lia.
Qed.

Lemma constructed_fields_in_range storage t0 :
  TouchPin_constructed storage t0 → fields_in_range t0.
Proof.
  intros [pin period|pin period sel]; unfold fields_in_range; cbn;
    repeat split; try apply to_ulong_range; try apply to_int_range;
    try apply to_uint_range; lia.
Qed.

(** X11.  On every run from construction, whatever the ring buffer's storage
    held, the cursor stays within the ten slots (no call reads or writes
    outside [_samples]) and the fields of the sensor hold values of their C
    types; hence [value()] is [_sum / 10] at every state a run reaches. *)
Theorem sensor_fields_stay_in_range storage t0 cs :
  length storage = 10%nat →
  TouchPin_constructed storage t0 →
  ∃ t ev, run TouchPin_call cs t0 = Some (t, ev) ∧
    length (_samples t) = 10%nat ∧ 0 ≤ _index t < 10 ∧
    fields_in_range t ∧ value t = _sum t ÷ 10.
Proof.
  intros Hlen Hnew.
  destruct (run_invariant TouchPin_call (λ t, buffer_ok t ∧ fields_in_range t)
              (λ _, True) (λ _, True)) with (cs := cs) (s := t0)
    as (t & ev & Hrun & [[Hl Hidx] Hfields] & _).
  - intros c t _ [Hok Hfields].
    assert (Hcall : ∃ t' ev, TouchPin_call c t = Some (t', ev) ∧ buffer_ok t').
    { destruct c as [env|v]; cbn.
      - destruct (TouchPin_update_total env t Hok) as (b & sev & -> & Hb & _). cbn. eauto.
      - eexists _, _. split; [reflexivity|exact Hok]. }
    destruct Hcall as (t' & ev & Hcall & Hok').
    exists t', ev. split; [exact Hcall|]. split; [|apply Forall_true; auto].
    split; [exact Hok'|]. exact (fields_in_range_call _ _ _ _ Hcall Hfields).
  - apply Forall_true. auto.
  - split; [|exact (constructed_fields_in_range _ _ Hnew)].
    destruct Hnew; (split; [exact Hlen|cbn; unfold SAMPLE_BUFFER_SIZE; lia]).
  - exists t, ev. split; [exact Hrun|]. split; [exact Hl|]. split; [exact Hidx|].
    split; [exact Hfields|].
    destruct Hfields as (_ & _ & Hsum & _). unfold is_ulong in Hsum.
    unfold value. change (to_ulong SAMPLE_BUFFER_SIZE) with 10.
    apply to_uint_id. rewrite Z.quot_div_nonneg by lia. split.
    + apply Z.div_pos; lia.
    + apply Z.div_lt_upper_bound; lia.
Qed.

Lemma sensor_fields_stay_in_range_witness :
  ∃ t ev,
    run TouchPin_call (map (λ n, PinUpdate (at_time n (2 ^ 32 - 1))) (seqZ 1 25))
        (TouchPin_new [7; 2 ^ 32 - 1; 0; 0; 0; 0; 0; 0; 0; 0] 0 0) = Some (t, ev) ∧
    length (_samples t) = 10%nat ∧ 0 ≤ _index t < 10 ∧
    fields_in_range t ∧ value t = _sum t ÷ 10.
Proof.
  apply (sensor_fields_stay_in_range [7; 2 ^ 32 - 1; 0; 0; 0; 0; 0; 0; 0; 0]);
    [reflexivity|constructor].
Defined.

(** ** A string nobody touches *)

Lemma held_below_not_touching B t :
  0 ≤ B → 10 * B < 2 ^ 32 → held_below B t → touching t = false.
Proof.
  intros HB0 HB (([Hlen _] & _ & Hsum) & Hin & Hthr).
  apply sumZ_bounds in Hin. rewrite Hlen in Hin.
  unfold touching, value. change (to_ulong SAMPLE_BUFFER_SIZE) with 10.
  rewrite Hsum, (to_ulong_id (sumZ _)) by (unfold is_ulong; lia).
  rewrite Z.quot_div_nonneg by lia.
  assert (Hdiv : 0 ≤ sumZ (_samples t) `div` 10 ≤ B).
  { split; [apply Z.div_pos; lia|apply Z.div_le_upper_bound; lia]. }
  rewrite to_uint_id by (unfold is_uint; lia).
  destruct (Z.gtb_spec (sumZ (_samples t) `div` 10) (_touch_threshold t)); [lia|reflexivity].
Qed.

Lemma held_below_update B env t b sev :
  0 ≤ B → 10 * B < 2 ^ 32 →
  (∀ pin, 0 ≤ touch env pin ≤ B) →
  TouchPin_update env t = Some (tt, b, sev) →
  held_below B t → held_below B b.
Proof.
  intros HB0 HB Hread Hup (Htr & Hin & Hthr).
  apply TouchPin_update_inv in Hup as [(_ & -> & _)|(_ & old & Hold & -> & _)].
  - split; [exact Htr|]. split; assumption.
  - split; [apply sum_tracks_sampled; assumption|]. split; [|exact Hthr].
    cbn. apply Forall_insert; [exact Hin|].
    rewrite to_uint_id; [apply Hread|]. specialize (Hread (_pin t)). unfold is_uint. lia.
Qed.

(** X12.  A string constructed over zero-filled storage, whose readings never
    exceed a bound at or below the default threshold 5000 and whose threshold
    is never set below that bound, stays Idle and sends no note at all. *)
Theorem untouched_string_is_silent h0 cs B :
  HarpString_constructed zero_storage h0 →
  0 ≤ B ≤ DEFAULT_TOUCH_THRESHOLD →
  Forall (stays_below B) cs →
  ∃ h ev, run HarpString_call cs h0 = Some (h, ev) ∧
    _state h = STATE_IDLE ∧ List.filter is_note ev = [].
Proof.
  unfold DEFAULT_TOUCH_THRESHOLD. intros Hnew HB Hcs.
  destruct (run_invariant HarpString_call
              (λ h, held_below B (base h) ∧ _state h = STATE_IDLE)
              (stays_below B) (λ e, is_note e = false)) with (cs := cs) (s := h0)
    as (h & ev & Hrun & [_ Hidle] & Hev).
  - intros c h Hc [Hheld Hidle]. destruct c as [env|v|v|v]; cbn in Hc |- *.
    + pose proof Hheld as ((Hok & _) & _).
      destruct (TouchPin_update_total env (base h) Hok) as (b & sev & Hup & _ & Hquiet).
      pose proof (held_below_update B env _ _ _ ltac:(lia) ltac:(lia) Hc Hup Hheld) as Hb.
      rewrite (HarpString_update_step _ _ _ _ Hup).
      rewrite switch_idle by exact Hidle. cbn.
      rewrite (held_below_not_touching B b ltac:(lia) ltac:(lia) Hb). cbn.
      eexists _, _. split; [reflexivity|]. split; [split; [exact Hb|exact Hidle]|].
      rewrite app_nil_r. eapply Forall_impl; [exact Hquiet|]. cbn. tauto.
    + eexists _, _. split; [reflexivity|]. split; [|constructor].
      split; [|exact Hidle]. destruct Hheld as (Htr & Hin & _).
      split; [exact Htr|]. split; [exact Hin|exact Hc].
    + eexists _, _. split; [reflexivity|]. split; [auto|constructor].
    + eexists _, _. split; [reflexivity|]. split; [auto|constructor].
  - exact Hcs.
  - split; [|destruct Hnew; reflexivity].
    assert (Hbase : TouchPin_constructed zero_storage (base h0)).
    { destruct Hnew; constructor. }
    split; [exact (constructed_sum_tracks _ Hbase)|]. split.
    + rewrite (constructed_samples _ _ Hbase). apply Forall_replicate. lia.
    + destruct Hnew; cbn; change (to_uint DEFAULT_TOUCH_THRESHOLD) with 5000; lia.
  - exists h, ev. split; [exact Hrun|]. split; [exact Hidle|]. apply filter_quiet, Hev.
Qed.

Lemma untouched_string_is_silent_witness :
  ∃ h ev,
    run HarpString_call
        ([SetTouchThreshold 4000] ++ map (λ n, Update (at_time n 3999)) (seqZ 1 30))
        (HarpString_new zero_storage 0 0) = Some (h, ev) ∧
    _state h = STATE_IDLE ∧ List.filter is_note ev = [].
Proof.
  apply (untouched_string_is_silent _ _ 3999); [constructor|vm_compute; split; discriminate|].
  repeat (apply Forall_cons; split; [first [intros pin; cbn; lia | vm_compute; discriminate]|]).
  constructor.
Defined.

(** ** The sustain across the wrap of the millisecond counter *)

Lemma elapsed_across_wrap (c0 d : Z) :
  0 ≤ d < 2 ^ 32 → to_ulong (to_ulong (c0 + d) - to_ulong c0) = d.
Proof.
  intros Hd. unfold to_ulong, to_unsigned.
  rewrite <- Zminus_mod, Z.add_simpl_l. apply Z.mod_small. exact Hd.
Qed.

(** X13.  The sustain is measured in true elapsed time also when the
    millisecond counter has wrapped since the note-on: a string sounding since
    time [c0] and not touched at time [c0 + d], with [d] below 2^32, falls
    Idle exactly when [d] is above [_duration]. *)
Theorem sustain_survives_counter_wrap c0 d touch h b sev :
  _state h = STATE_SOUNDING →
  _on_time h = to_ulong c0 →
  0 ≤ d < 2 ^ 32 →
  TouchPin_update (mkEnv (c0 + d) touch) (base h) = Some (tt, b, sev) →
  touching b = false →
  ∃ h' ev, HarpString_update (mkEnv (c0 + d) touch) h = Some (tt, h', ev) ∧
    (_state h' = STATE_IDLE ↔ d > _duration h) ∧
    (d > _duration h → List.filter is_note ev = [SendNoteOff (_midi_note h) 100 1]) ∧
    (d ≤ _duration h → List.filter is_note ev = [] ∧ _state h' = STATE_SOUNDING).
Proof.
  intros Hst Hon Hd Hup Htouch. rewrite (HarpString_update_step _ _ _ _ Hup).
  rewrite switch_sounding by exact Hst. cbn. rewrite Htouch, Hon.
  rewrite (elapsed_across_wrap c0 d Hd).
  pose proof (sensor_events_no_note _ _ _ _ _ Hup) as Hq.
  destruct (Z.gtb_spec d (_duration h)); eexists _, _; (split; [reflexivity|]); cbn.
  - split; [split; [lia|reflexivity]|]. split; [|lia].
    intros _. rewrite List.filter_app, Hq. reflexivity.
  - rewrite Hst. split; [split; [discriminate|lia]|]. split; [lia|].
    intros _. rewrite app_nil_r. auto.
Qed.

Lemma sustain_survives_counter_wrap_witness :
  let h := mkHarpString (mkTouchPin 0 10 1000 (replicate 10 0) 0 0 5000 (-1))
                        STATE_SOUNDING 4294966296 60 2000 in
  ∃ h' ev, HarpString_update (at_time (4294966296 + 2001) 0) h = Some (tt, h', ev) ∧
           _state h' = STATE_IDLE.
Proof.
  intros h.
  destruct (sustain_survives_counter_wrap 4294966296 2001 (λ _, 0) h (base h) [])
    as (h' & ev & Hrun & Hidle & _); [reflexivity|reflexivity|lia|reflexivity|reflexivity|].
  exists h', ev. split; [exact Hrun|]. apply Hidle. cbn. lia.
Defined.
